(** * EntityCollisionSystem: per-tick entity collision resolution

  A shallow embedding of [libraries/entities/src/EntityCollisionSystem.cpp].

  The C++ code computes with [float] and [glm::vec3].  The embedding is
  written once over an abstract scalar type (class [Scalar]), so that every
  statement about control flow and effects holds for any interpretation of
  the arithmetic.  The interpretation the program runs with is [Binary32]:
  IEEE binary32 as the soft-float of [SpecFloat], with binary64 for the one
  constant the code computes in [double]; the statements about computed
  values are proved there, rounding included.

  The collaborators that are outside the file (the entity tree, the entities,
  the avatar registry, the clock) are the methods of class [World]. *)

From Stdlib Require Import ZArith List Bool String Lia.
From Stdlib Require Import Floats.SpecFloat.
From Stdlib Require Import Ascii Sorted OrderedTypeEx.
Import ListNotations.

Set Implicit Arguments.

(** ** Scalars: what the code needs of [float] *)

Class Scalar (F : Type) := {
fadd : F -> F -> F;
fsub : F -> F -> F;
fmul : F -> F -> F;
fdiv : F -> F -> F;
fsqrt : F -> F;
fltb : F -> F -> bool;      (* a < b *)
fleb : F -> F -> bool;      (* a <= b *)
fofZ : Z -> F;              (* (float) n, for an int n *)
(* the part of [double] the file uses: a float operand is promoted, a double
   result stored in a float is rounded *)
double : Type;
dmul : double -> double -> double;
ddiv : double -> double -> double;
dofZ : Z -> double;
toDouble : F -> double;
toFloat : double -> F
}.

Declare Scope float_scope.
Delimit Scope float_scope with flt.
Infix "+" := fadd : float_scope.
Infix "-" := fsub : float_scope.
Infix "*" := fmul : float_scope.
Infix "/" := fdiv : float_scope.
Infix "<?" := fltb : float_scope.
Infix "<=?" := fleb : float_scope.
Notation "a >? b" := (fltb b a) (at level 70) : float_scope.

(* a decimal literal: 0.5f is [lit 1 2], 0.0167f is [lit 167 10000]; the
   division rounds n/d once, as the compiler does *)
Definition lit {F : Type} `{Scalar F} (n d : Z) : F := (fofZ n / fofZ d)%flt.
(* the same for a literal of type double: 9.8 is [dlit 98 10] *)
Definition dlit {F : Type} `{Scalar F} (n d : Z) : double := ddiv (dofZ n) (dofZ d).

(** ** The part of glm the file uses *)

Module glm.
Section Glm.
Context {F : Type} `{Scalar F}.
Local Open Scope float_scope.

Record vec3 := mkvec3 { x : F; y : F; z : F }.

Definition add (a b : vec3) : vec3 := mkvec3 (x a + x b) (y a + y b) (z a + z b).
Definition sub (a b : vec3) : vec3 := mkvec3 (x a - x b) (y a - y b) (z a - z b).
(* vec3 * float, float * vec3, vec3 / float *)
Definition scale (v : vec3) (s : F) : vec3 := mkvec3 (x v * s) (y v * s) (z v * s).
Definition lscale (s : F) (v : vec3) : vec3 := mkvec3 (s * x v) (s * y v) (s * z v).
Definition divs (v : vec3) (s : F) : vec3 := mkvec3 (x v / s) (y v / s) (z v / s).

Definition dot (a b : vec3) : F := x a * x b + y a * y b + z a * z b.
Definition length (v : vec3) : F := fsqrt (dot v v).
Definition inversesqrt (s : F) : F := fofZ 1 / fsqrt s.
Definition normalize (v : vec3) : vec3 := scale v (inversesqrt (dot v v)).

Definition min (a b : F) : F := if b <? a then b else a.
Definition max (a b : F) : F := if a <? b then b else a.
Definition clamp (v lo hi : F) : F := min (max v lo) hi.
End Glm.
End glm.

Import glm.
Arguments vec3 F : clear implicits.

Declare Scope vec_scope.
Delimit Scope vec_scope with vec.
Infix "+^" := glm.add (at level 50, left associativity) : vec_scope.
Infix "-^" := glm.sub (at level 50, left associativity) : vec_scope.
Infix "*^" := glm.scale (at level 40, left associativity) : vec_scope.
Infix "^*" := glm.lscale (at level 40, left associativity) : vec_scope.
Infix "/^" := glm.divs (at level 40, left associativity) : vec_scope.

(** ** Data *)

Definition quint64 := Z.

Section Data.
Variables F EntityItem EntityItemID Other : Type.

(* CollisionInfo.h; [_extraData] is a pointer and may be NULL *)
Record CollisionInfo := mkCollisionInfo {
  _penetration : vec3 F;
  _contactPoint : vec3 F;
  _addedVelocity : vec3 F;
  _damping : F;
  _elasticity : F;
  _extraData : option EntityItem
}.

(* the argument of the entityCollisionWithEntity signal *)
Record Collision := mkCollision {
  penetration : vec3 F;
  contactPoint : vec3 F
}.

(* the properties this file sets; [otherProperties] is the rest of what
   [EntityItem::getProperties] returns *)
Record EntityItemProperties := mkProperties {
  otherProperties : Other;
  position : vec3 F;
  velocity : vec3 F;
  lastEdited : quint64
}.

Definition setVelocity (p : EntityItemProperties) (v : vec3 F) :=
  mkProperties (otherProperties p) (position p) v (lastEdited p).
Definition setPosition (p : EntityItemProperties) (v : vec3 F) :=
  mkProperties (otherProperties p) v (velocity p) (lastEdited p).
Definition setLastEdited (p : EntityItemProperties) (t : quint64) :=
  mkProperties (otherProperties p) (position p) (velocity p) t.

(** Modelled from the spec: [CollisionList] (CollisionInfo.h, of
    libraries/shared, is not among the files verified here): "a bounded,
    reusable collection of per-contact records"; a contact offered to a full
    list is dropped. *)
Record CollisionList := mkCollisionList {
  maxSize : nat;
  items : list CollisionInfo
}.

Definition newCollisionList (cap : nat) : CollisionList := mkCollisionList cap [].
Definition size (l : CollisionList) : nat := List.length (items l).
Definition clear (l : CollisionList) : CollisionList := mkCollisionList (maxSize l) [].
Definition getCollision (l : CollisionList) (i : nat) : option CollisionInfo :=
  nth_error (items l) i.
Definition addCollision (l : CollisionList) (c : CollisionInfo) : CollisionList :=
  if size l <? maxSize l then mkCollisionList (maxSize l) (items l ++ [c]) else l.
Definition addCollisions (l : CollisionList) (cs : list CollisionInfo) : CollisionList :=
  fold_left addCollision cs l.

(* what the system does to the world, in order *)
Inductive Event :=
| UpdateEntity (entity : EntityItem) (properties : EntityItemProperties)
| QueueEditEntityMessage (id : EntityItemID) (properties : EntityItemProperties)
| EntityCollisionWithEntity (idA idB : EntityItemID) (collision : Collision)
| DebugMessage (text : string).
End Data.

Arguments mkCollisionInfo {F EntityItem}.
Arguments mkCollision {F}.
Arguments mkProperties {F Other}.
Arguments newCollisionList {F EntityItem}.
Arguments UpdateEntity {F EntityItem EntityItemID Other}.
Arguments QueueEditEntityMessage {F EntityItem EntityItemID Other}.
Arguments EntityCollisionWithEntity {F EntityItem EntityItemID Other}.
Arguments DebugMessage {F EntityItem EntityItemID Other}.

(** ** Collaborators *)

Section System.
Variables F EntityTree EntityItem QUuid EntityItemID Shape Other Avatar Clock : Type.
Context {scalar : Scalar F}.

Local Abbreviation CollisionInfo := (CollisionInfo F EntityItem).
Local Abbreviation CollisionList := (CollisionList F EntityItem).
Local Abbreviation EntityItemProperties := (EntityItemProperties F Other).
Local Abbreviation Event := (Event F EntityItem EntityItemID Other).

(** What the file calls and does not define.  An [EntityItem] is the
    pointer; the entity's state lives in the [EntityTree]. *)
Class World := {
  TREE_SCALE : Z;                                   (* OctreeConstants.h *)
  (* EntityItem *)
  getIgnoreForCollisions : EntityTree -> EntityItem -> bool;
  isKnownID : EntityTree -> EntityItem -> bool;
  getCollisionsWillMove : EntityTree -> EntityItem -> bool;
  getPosition : EntityTree -> EntityItem -> vec3 F;
  getVelocity : EntityTree -> EntityItem -> vec3 F;
  getLargestDimension : EntityTree -> EntityItem -> F;
  getRadius : EntityTree -> EntityItem -> F;
  computeMass : EntityTree -> EntityItem -> F;
  getCollisionShapeInMeters : EntityTree -> EntityItem -> Shape;
  getProperties : EntityTree -> EntityItem -> EntityItemProperties;
  getID : EntityTree -> EntityItem -> QUuid;
  getEntityItemID : EntityTree -> EntityItem -> EntityItemID;
  EntityItemID_of : QUuid -> EntityItemID;        (* EntityItemID id(uuid) *)
  (* EntityTree *)
  tryLockForWrite : EntityTree -> option EntityTree;
  unlock : EntityTree -> EntityTree;
  updateEntity : EntityTree -> EntityItem -> EntityItemProperties -> EntityTree;
  (* every overlap of a shape with the entities of the tree, in the order
     the tree finds them *)
  shapeOverlaps : EntityTree -> Shape -> list CollisionInfo;
  (* AvatarData *)
  getBoundingRadius : Avatar -> F;
  getAvatarPosition : Avatar -> vec3 F;
  sphereOverlaps : Avatar -> vec3 F -> F -> list CollisionInfo;
  (* usecTimestampNow() *)
  readClock : Clock -> quint64 * Clock
}.

Context {world : World}.

(** Modelled from the spec: [EntityTree::findShapeCollisions] and
    [AvatarData::findSphereCollisions] (neither is among the files verified
    here):
    "queryShapeOverlaps(..) -> bounded list<ContactRecord>".  The contacts
    found are added to the list handed in, up to its capacity; the result
    tells whether the call stored a contact. *)
Definition findShapeCollisions (tree : EntityTree) (shape : Shape)
    (collisions : CollisionList) : bool * CollisionList :=
  let collisions' := addCollisions collisions (shapeOverlaps tree shape) in
  (size collisions <? size collisions', collisions').

Definition findSphereCollisions (avatar : Avatar) (center : vec3 F) (radius : F)
    (collisions : CollisionList) : bool * CollisionList :=
  let collisions' := addCollisions collisions (sphereOverlaps avatar center radius) in
  (size collisions <? size collisions', collisions').

(** ** State *)

Record EntityCollisionSystem := mkSystem {
  _entityTree : EntityTree;
  _movingEntities : list EntityItem;
  _collisions : CollisionList;
  (* DependencyManager::get<AvatarHashMap>(): NULL, or the avatars *)
  avatarHashMap : option (list Avatar);
  clock : Clock;
  (* updates of the tree, messages handed to _packetSender, signals emitted
     and lines logged, oldest first *)
  trace : list Event
}.

(* the buffer has capacity [cap] and holds no more than that *)
Definition bufferWithin (cap : nat) (s : EntityCollisionSystem) : Prop :=
  maxSize (_collisions s) = cap /\ size (_collisions s) <= cap.

Definition M (A : Type) : Type := EntityCollisionSystem -> A * EntityCollisionSystem.
Definition ret {A} (a : A) : M A := fun s => (a, s).
Definition bind {A B} (m : M A) (k : A -> M B) : M B :=
  fun s => let (a, s') := m s in k a s'.
Definition exec {A} (m : M A) (s : EntityCollisionSystem) : EntityCollisionSystem :=
  snd (m s).

Notation "x <- m ;; k" := (bind m (fun x => k))
  (at level 61, m at next level, right associativity).
Notation "m ;; k" := (bind m (fun _ => k))
  (at level 61, right associativity).

Definition when (b : bool) (m : M unit) : M unit := if b then m else ret tt.

Fixpoint forEach {A} (l : list A) (body : A -> M unit) : M unit :=
  match l with
  | [] => ret tt
  | a :: l' => body a ;; forEach l' body
  end.

Definition tree : M EntityTree := fun s => (_entityTree s, s).
Definition setTree (t : EntityTree) : M unit := fun s =>
  (tt, mkSystem t (_movingEntities s) (_collisions s) (avatarHashMap s) (clock s) (trace s)).
Definition collisions : M CollisionList := fun s => (_collisions s, s).
Definition setCollisions (c : CollisionList) : M unit := fun s =>
  (tt, mkSystem (_entityTree s) (_movingEntities s) c (avatarHashMap s) (clock s) (trace s)).
Definition emit (e : Event) : M unit := fun s =>
  (tt, mkSystem (_entityTree s) (_movingEntities s) (_collisions s) (avatarHashMap s)
         (clock s) (trace s ++ [e])).

Definition usecTimestampNow : M quint64 := fun s =>
  let (now, clock') := readClock (clock s) in
  (now, mkSystem (_entityTree s) (_movingEntities s) (_collisions s) (avatarHashMap s)
          clock' (trace s)).

(* _entityTree->updateEntity(entity, properties) *)
Definition treeUpdateEntity (entity : EntityItem) (properties : EntityItemProperties) : M unit :=
  t <- tree ;;
  setTree (updateEntity t entity properties) ;;
  emit (UpdateEntity entity properties).

(* _packetSender->queueEditEntityMessage(PacketTypeEntityAddOrEdit, id, properties) *)
Definition queueEditEntityMessage (id : EntityItemID) (properties : EntityItemProperties) : M unit :=
  emit (QueueEditEntityMessage id properties).

Definition qDebug (text : string) : M unit := emit (DebugMessage text).

(** ** EntityCollisionSystem.cpp *)

Local Open Scope float_scope.
Local Open Scope vec_scope.

Definition scaleF : F := fofZ TREE_SCALE.             (* (float)(TREE_SCALE) *)

Definition MAX_COLLISIONS_PER_Entity : nat := 16.

(* EntityCollisionSystem::EntityCollisionSystem(), then init(); the tree, the
   moving entities and the avatar registry are what the owners supply *)
Definition init (entities : EntityTree) (moving : list EntityItem)
    (avatars : option (list Avatar)) (c : Clock) : EntityCollisionSystem :=
  mkSystem entities moving (newCollisionList MAX_COLLISIONS_PER_Entity) avatars c [].

Definition emitGlobalEntityCollisionWithEntity (entityA entityB : EntityItem)
    (collision : Collision F) : M unit :=
  t <- tree ;;
  let idA := getEntityItemID t entityA in
  let idB := getEntityItemID t entityB in
  emit (EntityCollisionWithEntity idA idB collision).

(* lines 136-151: the velocity ratios of the two sides *)
Definition massRatios (wantToMoveA wantToMoveB : bool) (massA massB : F) : F * F :=
  let totalMass := massA + massB in
  let massRatioA := fofZ 2 * massB / totalMass in
  let massRatioB := fofZ 2 * massA / totalMass in
  let '(massRatioA, massRatioB) :=
    if wantToMoveA && negb wantToMoveB then (fofZ 2, fofZ 0) else (massRatioA, massRatioB) in
  let '(massRatioA, massRatioB) :=
    if negb wantToMoveA && wantToMoveB then (fofZ 0, fofZ 2) else (massRatioA, massRatioB) in
  (massRatioA, massRatioB).

(* lines 117-127: is the contact with [entityB] resolved? *)
Definition doCollisions (t : EntityTree) (entityA entityB : EntityItem)
    (penetration : vec3 F) : bool :=
  let penetrationInTreeUnits := penetration /^ scaleF in
  let relativeVelocity := getVelocity t entityA -^ getVelocity t entityB in
  let fullyEnclosedCollision :=
    glm.length penetrationInTreeUnits >? getLargestDimension t entityA in
  let wantToMoveA := getCollisionsWillMove t entityA in
  let wantToMoveB := getCollisionsWillMove t entityB in
  let movingTowardEachOther := glm.dot relativeVelocity penetrationInTreeUnits >? fofZ 0 in
  negb fullyEnclosedCollision && movingTowardEachOther && (wantToMoveA || wantToMoveB).

(* lines 96-196: the body of the loop over the contacts of [entityA] *)
Definition collideWithEntity (entityA : EntityItem) (collision : CollisionInfo) : M unit :=
  let penetration := _penetration collision in
  match _extraData collision with
  | None =>
      qDebug "UNEXPECTED - we have a collision with missing _extraData. Something went wrong down below!"
  | Some entityB =>
      t <- tree ;;
      if negb (isKnownID t entityB) then ret tt else
      let penetrationInTreeUnits := penetration /^ scaleF in
      let relativeVelocity := getVelocity t entityA -^ getVelocity t entityB in
      let wantToMoveA := getCollisionsWillMove t entityA in
      let wantToMoveB := getCollisionsWillMove t entityB in
      if doCollisions t entityA entityB penetration then
        now <- usecTimestampNow ;;
        let axis := glm.normalize penetration in
        let axialVelocity := glm.dot relativeVelocity axis ^* axis in
        let massA := computeMass t entityA in
        let massB := computeMass t entityB in
        let '(massRatioA, massRatioB) := massRatios wantToMoveA wantToMoveB massA massB in
        when wantToMoveA (
          t <- tree ;;
          let newVelocityA := getVelocity t entityA -^ axialVelocity *^ massRatioA in
          let newPositionA := getPosition t entityA -^ lit 1 2 ^* penetrationInTreeUnits in
          let propertiesA := getProperties t entityA in
          let idA := EntityItemID_of (getID t entityA) in
          let propertiesA := setVelocity propertiesA (newVelocityA *^ scaleF) in
          let propertiesA := setPosition propertiesA (newPositionA *^ scaleF) in
          let propertiesA := setLastEdited propertiesA now in
          treeUpdateEntity entityA propertiesA ;;
          queueEditEntityMessage idA propertiesA) ;;
        when wantToMoveB (
          t <- tree ;;
          let newVelocityB := getVelocity t entityB +^ axialVelocity *^ massRatioB in
          let newPositionB := getPosition t entityB +^ lit 1 2 ^* penetrationInTreeUnits in
          let propertiesB := getProperties t entityB in
          let idB := EntityItemID_of (getID t entityB) in
          let propertiesB := setVelocity propertiesB (newVelocityB *^ scaleF) in
          let propertiesB := setPosition propertiesB (newPositionB *^ scaleF) in
          let propertiesB := setLastEdited propertiesB now in
          treeUpdateEntity entityB propertiesB ;;
          queueEditEntityMessage idB propertiesB) ;;
        t <- tree ;;
        let collision :=
          mkCollision penetration
            ((lit 1 2 * scaleF) ^* (getPosition t entityA +^ getPosition t entityB)) in
        emitGlobalEntityCollisionWithEntity entityA entityB collision
      else ret tt
  end.

Definition MAX_COLLISIONS_PER_ENTITY : nat := 32.

(* lines 86-91: the contacts the scan of [entityA] works on *)
Definition entityContacts (t : EntityTree) (entityA : EntityItem) : bool * CollisionList :=
  let collisions := newCollisionList MAX_COLLISIONS_PER_ENTITY in
  findShapeCollisions t (getCollisionShapeInMeters t entityA) collisions.

Definition updateCollisionWithEntities (entityA : EntityItem) : M unit :=
  t <- tree ;;
  if getIgnoreForCollisions t entityA then ret tt else
  if negb (isKnownID t entityA) then ret tt else
  let '(shapeCollisions, collisions) := entityContacts t entityA in
  if shapeCollisions then forEach (items collisions) (collideWithEntity entityA)
  else ret tt.

Definition HALTING_ENTITY_PERIOD : F := lit 167 10000.          (* 0.0167f *)
(* 9.8 * HALTING_ENTITY_PERIOD / (float)(TREE_SCALE): 9.8 is a double, so both
   floats are promoted, the product and the quotient are taken in double, and
   the result is rounded once when it is stored in the const float *)
Definition HALTING_ENTITY_SPEED : F :=
  toFloat (ddiv (dmul (dlit 98 10) (toDouble HALTING_ENTITY_PERIOD)) (toDouble scaleF)).
Definition EPSILON : F := fofZ 0.

(* lines 268-290: the corrected (position, velocity) *)
Definition hardCollisionResponse (position velocity : vec3 F) (collisionInfo : CollisionInfo)
    : vec3 F * vec3 F :=
  let relativeVelocity := _addedVelocity collisionInfo -^ velocity in
  let velocityDotPenetration := glm.dot relativeVelocity (_penetration collisionInfo) in
  if velocityDotPenetration <? EPSILON then
    let position := position -^ _penetration collisionInfo in
    if glm.length relativeVelocity <? HALTING_ENTITY_SPEED then
      (position, _addedVelocity collisionInfo)
    else
      let direction := glm.normalize (_penetration collisionInfo) in
      let velocity := velocity +^
        (glm.dot relativeVelocity direction * (fofZ 1 + _elasticity collisionInfo)) ^* direction in
      let velocity := velocity +^
        glm.clamp (_damping collisionInfo) (fofZ 0) (fofZ 1) ^*
          (relativeVelocity -^ glm.dot relativeVelocity direction ^* direction) in
      (position, velocity)
  else (position, velocity).

Definition applyHardCollision (entity : EntityItem) (collisionInfo : CollisionInfo) : M unit :=
  t <- tree ;;
  if negb (isKnownID t entity) then ret tt else
  let '(position, velocity) :=
    hardCollisionResponse (getPosition t entity) (getVelocity t entity) collisionInfo in
  let properties := getProperties t entity in
  let entityItemID := EntityItemID_of (getID t entity) in
  let properties := setPosition properties (position *^ scaleF) in
  let properties := setVelocity properties (velocity *^ scaleF) in
  now <- usecTimestampNow ;;
  let properties := setLastEdited properties now in
  treeUpdateEntity entity properties ;;
  queueEditEntityMessage entityItemID properties.

Definition ELASTICITY : F := lit 9 10.
Definition DAMPING : F := lit 1 10.

(* the record behind the pointer _collisions.getCollision(i) is written in place *)
Fixpoint setNth {A} (l : list A) (i : nat) (a : A) : list A :=
  match l, i with
  | [], _ => []
  | _ :: l', O => a :: l'
  | b :: l', S i' => b :: setNth l' i' a
  end.

Definition storeCollision (i : nat) (c : CollisionInfo) : M unit :=
  cs <- collisions ;;
  setCollisions (mkCollisionList (maxSize cs) (setNth (items cs) i c)).

(* lines 231-243: the body of the loop over the indices of _collisions *)
Definition collideWithAvatarContact (entity : EntityItem) (i : nat) : M unit :=
  cs <- collisions ;;
  match getCollision cs i with
  | None => ret tt
  | Some collision =>
      let collision :=
        mkCollisionInfo (_penetration collision) (_contactPoint collision)
          (_addedVelocity collision /^ scaleF) DAMPING ELASTICITY (_extraData collision) in
      storeCollision i collision ;;
      t <- tree ;;
      let relativeVelocity := _addedVelocity collision -^ getVelocity t entity in
      if glm.dot relativeVelocity (_penetration collision) <=? fofZ 0 then
        let collision :=
          mkCollisionInfo (_penetration collision /^ scaleF) (_contactPoint collision)
            (_addedVelocity collision) (_damping collision) (_elasticity collision)
            (_extraData collision) in
        storeCollision i collision ;;
        applyHardCollision entity collision
      else ret tt
  end.

(* lines 220-245: the body of the loop over the avatars *)
Definition collideWithAvatar (entity : EntityItem) (center : vec3 F) (radius : F)
    (avatar : Avatar) : M unit :=
  let totalRadius := getBoundingRadius avatar + radius in
  let relativePosition := center -^ getAvatarPosition avatar in
  if glm.dot relativePosition relativePosition >? totalRadius * totalRadius then ret tt else
  cs <- collisions ;;
  let '(found, cs) := findSphereCollisions avatar center radius cs in
  setCollisions cs ;;
  if found then
    let numCollisions := size cs in
    forEach (seq 0 numCollisions) (collideWithAvatarContact entity)
  else ret tt.

Definition updateCollisionWithAvatars (entity : EntityItem) : M unit :=
  fun s =>
  match avatarHashMap s with
  | None => (tt, s)
  | Some avatars =>
     (t <- tree ;;
      if getIgnoreForCollisions t entity || negb (getCollisionsWillMove t entity) then ret tt else
      let center := getPosition t entity *^ scaleF in
      let radius := getRadius t entity * scaleF in
      cs <- collisions ;;
      setCollisions (clear cs) ;;
      forEach avatars (collideWithAvatar entity center radius)) s
  end.

Definition checkEntity (entity : EntityItem) : M unit :=
  updateCollisionWithEntities entity ;;
  updateCollisionWithAvatars entity.

Definition updateCollisions : M unit :=
  fun s =>
  match tryLockForWrite (_entityTree s) with
  | Some locked =>
     (setTree locked ;;
      forEach (_movingEntities s) checkEntity ;;
      t <- tree ;;
      setTree (unlock t)) s
  | None => (tt, s)
  end.

End System.

Arguments scaleF {F EntityTree EntityItem QUuid EntityItemID Shape Other Avatar Clock scalar world}.
Arguments HALTING_ENTITY_SPEED
  {F EntityTree EntityItem QUuid EntityItemID Shape Other Avatar Clock scalar world}.
Arguments updateCollisions
  {F EntityTree EntityItem QUuid EntityItemID Shape Other Avatar Clock scalar world}.
Arguments EPSILON {F scalar}.
Arguments HALTING_ENTITY_PERIOD {F scalar}.
Arguments ELASTICITY {F scalar}.
Arguments DAMPING {F scalar}.
Arguments init {F EntityTree EntityItem EntityItemID Other Avatar Clock}.

(** ** Two interpretations of [float] *)

(** IEEE 754 binary32, as [SpecFloat] defines it. *)
Module Binary32.
Definition prec : Z := 24.
Definition emax : Z := 128.
Definition float : Type := spec_float.
Definition ofZ (n : Z) : float := binary_normalize prec emax n 0 false.
(* a float in its canonical representation; a finite one, zero excluded *)
Definition valid (a : float) : bool := valid_binary prec emax a.
Definition finite (a : float) : bool :=
  match a with S754_finite _ _ _ => true | _ => false end.

(* binary64, for the constant computed in double *)
Definition prec64 : Z := 53.
Definition emax64 : Z := 1024.
(* a value brought to the format (p, emax), to the nearest, ties to even:
   exact from binary32 to binary64, rounding the other way *)
Definition round (p emax : Z) (a : spec_float) : spec_float :=
  match a with
  | S754_finite s m e => binary_normalize p emax (cond_Zopp s (Z.pos m)) e s
  | _ => a
  end.

#[export] Instance scalar32 : Scalar float := {|
  fadd := SFadd prec emax;
  fsub := SFsub prec emax;
  fmul := SFmul prec emax;
  fdiv := SFdiv prec emax;
  fsqrt := SFsqrt prec emax;
  fltb := SFltb;
  fleb := SFleb;
  fofZ := ofZ;
  double := spec_float;
  dmul := SFmul prec64 emax64;
  ddiv := SFdiv prec64 emax64;
  dofZ := fun n => binary_normalize prec64 emax64 n 0 false;
  toDouble := round prec64 emax64;
  toFloat := round prec emax
|}.

(* the classes of floats the exact cases are stated with: a zero of either
   sign; a number (neither an infinity nor a NaN); 1.0f or -1.0f *)
Definition isZero (a : float) : bool :=
  match a with S754_zero _ => true | _ => false end.
Definition finiteOrZero (a : float) : bool :=
  match a with S754_zero _ | S754_finite _ _ _ => true | _ => false end.
Definition isUnit (a : float) : bool :=
  match a with
  | S754_finite _ m e => Pos.eqb m 8388608 && Z.eqb e (-23)
  | _ => false
  end.

Inductive Axis := AxisX | AxisY | AxisZ.
Definition component (i : Axis) (v : vec3 float) : float :=
  match i with AxisX => x v | AxisY => y v | AxisZ => z v end.
(* a unit vector along a coordinate axis, of either sign *)
Definition alongAxis (i : Axis) (d : vec3 float) : bool :=
  match i with
  | AxisX => isUnit (x d) && isZero (y d) && isZero (z d)
  | AxisY => isZero (x d) && isUnit (y d) && isZero (z d)
  | AxisZ => isZero (x d) && isZero (y d) && isUnit (z d)
  end.
End Binary32.

(** ** A small world to run the code in

    Entities are the indices of a list; the overlaps the tree and the avatars
    report are data of the scene. *)
Module Scene.
Section Scene.
Context {F : Type} {scalar : Scalar F}.

Record Entity := mkEntity {
  known : bool;
  ignoreForCollisions : bool;
  collisionsWillMove : bool;
  entityPosition : vec3 F;
  entityVelocity : vec3 F;
  largestDimension : F;
  radius : F;
  mass : F;
  edited : quint64;
  overlaps : list (CollisionInfo F nat)
}.

Record Tree := mkTree {
  entities : list Entity;
  locked : bool
}.

Record Avatar := mkAvatar {
  avatarPosition : vec3 F;
  boundingRadius : F;
  contacts : list (CollisionInfo F nat)
}.

Definition zero3 : vec3 F := mkvec3 (fofZ 0) (fofZ 0) (fofZ 0).
Definition noEntity : Entity :=
  mkEntity false true false zero3 zero3 (fofZ 0) (fofZ 0) (fofZ 0) 0%Z [].
Definition entity (t : Tree) (e : nat) : Entity := nth e (entities t) noEntity.

Definition treeScale : Z := 16384.

(** Modelled from the spec: [EntityTree::updateEntity] (not among the files
    verified here): "applyPropertyUpdate(entityId, {position, velocity, timestamp})";
    the entity keeps its state in tree units. *)
Definition applyUpdate (t : Tree) (e : nat) (p : EntityItemProperties F unit) : Tree :=
  let old := entity t e in
  let new :=
    mkEntity (known old) (ignoreForCollisions old) (collisionsWillMove old)
      (glm.divs (position p) (fofZ treeScale)) (glm.divs (velocity p) (fofZ treeScale))
      (largestDimension old) (radius old) (mass old) (lastEdited p) (overlaps old) in
  mkTree (setNth (entities t) e new) (locked t).

Definition lockTree (t : Tree) : option Tree :=
  if locked t then None else Some (mkTree (entities t) true).
Definition unlockTree (t : Tree) : Tree := mkTree (entities t) false.

#[export] Instance world : World F Tree nat nat nat nat unit Avatar Z := {|
  TREE_SCALE := treeScale;
  getIgnoreForCollisions t e := ignoreForCollisions (entity t e);
  isKnownID t e := known (entity t e);
  getCollisionsWillMove t e := collisionsWillMove (entity t e);
  getPosition t e := entityPosition (entity t e);
  getVelocity t e := entityVelocity (entity t e);
  getLargestDimension t e := largestDimension (entity t e);
  getRadius t e := radius (entity t e);
  computeMass t e := mass (entity t e);
  getCollisionShapeInMeters t e := e;
  getProperties t e :=
    mkProperties tt (glm.scale (entityPosition (entity t e)) (fofZ treeScale))
      (glm.scale (entityVelocity (entity t e)) (fofZ treeScale)) (edited (entity t e));
  getID t e := e;
  getEntityItemID t e := e;
  EntityItemID_of u := u;
  tryLockForWrite := lockTree;
  unlock := unlockTree;
  updateEntity := applyUpdate;
  shapeOverlaps t shape := overlaps (entity t shape);
  getBoundingRadius := boundingRadius;
  getAvatarPosition := avatarPosition;
  sphereOverlaps a center r := contacts a;
  readClock c := (c, (c + 1)%Z)
|}.

Definition System : Type := EntityCollisionSystem F Tree nat nat unit Avatar Z.
End Scene.
Arguments Entity F : clear implicits.
Arguments Tree F : clear implicits.
Arguments Avatar F : clear implicits.
Arguments System F : clear implicits.
End Scene.

(** ** Scenes *)

Module Examples.
Import Binary32.
Local Open Scope Z_scope.

Definition f (n d : Z) : float := lit n d.
Definition v3 (a b c : float) : vec3 float := mkvec3 a b c.
Definition contact (pen added : vec3 float) (other : option nat) : CollisionInfo float nat :=
  mkCollisionInfo pen Scene.zero3 added (f 0 1) (f 0 1) other.

(* a ball two meters wide, sliding along z at 2^-17 tree units a second *)
Definition ball : Scene.Entity float :=
  Scene.mkEntity true false true (v3 (f 1 4) (f 1 4) (f 1 4)) (v3 (f 0 1) (f 0 1) (f 1 131072))
    (f 1 8192) (f 1 16384) (f 2 1) 0 [].

(* two avatars next to the ball, each reporting one contact: the first lies
   ahead of the ball and recedes from it at 1/16 m/s, the second touches its
   side and stands still *)
Definition addedVelocity1 : vec3 float := v3 (f 0 1) (f 0 1) (f 1 16).
Definition avatarContact1 := contact (v3 (f 0 1) (f 0 1) (f 1 4)) addedVelocity1 None.
Definition avatarContact2 := contact (v3 (f 0 1) (f 1 2) (f 0 1)) Scene.zero3 None.
Definition avatar1 : Scene.Avatar float :=
  Scene.mkAvatar (v3 (f 4096 1) (f 4096 1) (f 4097 1)) (f 1 1) [avatarContact1].
Definition avatar2 : Scene.Avatar float :=
  Scene.mkAvatar (v3 (f 4096 1) (f 4097 1) (f 4096 1)) (f 1 1) [avatarContact2].

Definition twoAvatars : Scene.System float :=
  init (Scene.mkTree [ball] false) [0%nat] (Some [avatar1; avatar2]) 1000.

(* the properties of the updates applied to the tree, oldest first *)
Definition updatesOf {F EntityItem EntityItemID Other}
    (events : list (Event F EntityItem EntityItemID Other))
    : list (EntityItemProperties F Other) :=
  flat_map (fun e => match e with UpdateEntity _ p => [p] | _ => [] end) events.

(* a movable box A drifting along x into an anchored box B; the tree reports
   the contact with B (penetration 1 m along x), and one with B seen from the
   far side *)
Definition hitB := contact (v3 (f 1 1) (f 0 1) (f 0 1)) Scene.zero3 (Some 1%nat).
Definition awayFromB := contact (v3 (f (-1) 1) (f 0 1) (f 0 1)) Scene.zero3 (Some 1%nat).
Definition boxA : Scene.Entity float :=
  Scene.mkEntity true false true (v3 (f 1 4) (f 1 4) (f 1 4)) (v3 (f 1 1024) (f 0 1) (f 0 1))
    (f 1 1024) (f 1 2048) (f 2 1) 0 [awayFromB; hitB].
Definition boxB : Scene.Entity float :=
  Scene.mkEntity true false false (v3 (f 4097 16384) (f 1 4) (f 1 4)) Scene.zero3
    (f 1 1024) (f 1 2048) (f 5 1) 0 [].
Definition twoBoxes : Scene.System float :=
  init (Scene.mkTree [boxA; boxB] false) [0%nat] None 1000.
Definition twoBoxesLocked : Scene.System float :=
  init (Scene.mkTree [boxA; boxB] true) [0%nat] None 1000.

(* the same with a movable twin of A in place of B *)
Definition boxTwin : Scene.Entity float :=
  Scene.mkEntity true false true (v3 (f 4097 16384) (f 1 4) (f 1 4)) Scene.zero3
    (f 1 1024) (f 1 2048) (f 2 1) 0 [].
Definition twins : Scene.System float :=
  init (Scene.mkTree [boxA; boxTwin] false) [0%nat] None 1000.

(* contacts handed to applyHardCollision, in tree units: one along which the
   ball does not approach, one it approaches slowly *)
Definition sideContact := contact (v3 (f 0 1) (f 1 32768) (f 0 1)) Scene.zero3 None.
Definition slowContact :=
  contact (v3 (f 0 1) (f 0 1) (f 1 65536)) (v3 (f 0 1) (f 0 1) (f 1 262144)) None.

(* forty overlaps of one shape *)
Definition fortyContacts : list (CollisionInfo float nat) := repeat hitB 40.
Definition crowdedBox : Scene.Entity float :=
  Scene.mkEntity true false true (v3 (f 1 4) (f 1 4) (f 1 4)) Scene.zero3
    (f 1 1024) (f 1 16384) (f 2 1) 0 fortyContacts.
Definition crowd : Scene.System float :=
  init (Scene.mkTree [crowdedBox; boxB] false) [0%nat]
    (Some [Scene.mkAvatar (v3 (f 4096 1) (f 4096 1) (f 4096 1)) (f 1 1) fortyContacts]) 1000.

(* the ball when it ignores collisions, and when the tree does not know its
   identifier; either way the tree reports a contact for its shape *)
Definition ghost : Scene.Entity float :=
  Scene.mkEntity true true true (v3 (f 1 4) (f 1 4) (f 1 4)) (v3 (f 0 1) (f 0 1) (f 1 131072))
    (f 1 8192) (f 1 16384) (f 2 1) 0 [hitB].
Definition stranger : Scene.Entity float :=
  Scene.mkEntity false false true (v3 (f 1 4) (f 1 4) (f 1 4)) (v3 (f 0 1) (f 0 1) (f 1 131072))
    (f 1 8192) (f 1 16384) (f 2 1) 0 [hitB].
Definition ghosts : Scene.System float :=
  init (Scene.mkTree [ghost; boxB] false) [0%nat] (Some [avatar1]) 1000.
Definition strangers : Scene.System float :=
  init (Scene.mkTree [stranger; boxB] false) [0%nat] (Some [avatar1]) 1000.

(* a contact with an entity that is not in the tree *)
Definition hitNobody := contact (v3 (f 1 1) (f 0 1) (f 0 1)) Scene.zero3 (Some 7%nat).

(* the anchored box probing, the drifting one as its counterpart *)
Definition anchoredFirst : Scene.System float :=
  init (Scene.mkTree [boxB; boxA] false) [0%nat] None 1000.

(* two avatars some kilometers from the ball, with contacts to report *)
Definition farAvatar1 : Scene.Avatar float :=
  Scene.mkAvatar Scene.zero3 (f 1 1) [avatarContact1].
Definition farAvatar2 : Scene.Avatar float :=
  Scene.mkAvatar (v3 (f 4096 1) (f 4096 1) (f 0 1)) (f 2 1) [avatarContact2].
Definition farAvatars : Scene.System float :=
  init (Scene.mkTree [ball] false) [0%nat] (Some [farAvatar1; farAvatar2]) 1000.


(* fully elastic, undamped contacts with a body at rest: one askew, one
   against a wall that faces along y *)
Definition elastic (pen : vec3 float) : CollisionInfo float nat :=
  mkCollisionInfo pen Scene.zero3 Scene.zero3 (f 0 1) (f 1 1) None.
Definition skewContact := elastic (v3 (f 1 10) (f 2 10) (f 3 10)).
Definition skewVelocity : vec3 float := v3 (f 1 3) (f 2 7) (f 5 11).
Definition wallContact := elastic (v3 (f 0 1) (f (-3) 1) (f 0 1)).
Definition wallVelocity : vec3 float := v3 (f 1 3) (f (-2) 7) (f 0 1).

End Examples.

(** ** Shapes of event sequences *)

Section Traces.
Variables F EntityItem EntityItemID Other : Type.

Local Abbreviation Event := (Event F EntityItem EntityItemID Other).

(* every update applied to the tree is followed at once by the edit message
   with the same properties *)
Inductive paired : list Event -> Prop :=
| paired_nil : paired []
| paired_update entity id properties events :
    paired events ->
    paired (UpdateEntity entity properties :: QueueEditEntityMessage id properties :: events)
| paired_signal idA idB collision events :
    paired events -> paired (EntityCollisionWithEntity idA idB collision :: events)
| paired_debug text events :
    paired events -> paired (DebugMessage text :: events).

(* the event is an update of [entity], or an edit message *)
Definition editOf (entity : EntityItem) (event : Event) : Prop :=
  match event with
  | UpdateEntity e _ => e = entity
  | QueueEditEntityMessage _ _ => True
  | _ => False
  end.

(* the entity an update is applied to *)
Definition updateTarget (event : Event) : option EntityItem :=
  match event with
  | UpdateEntity e _ => Some e
  | _ => None
  end.
End Traces.

Arguments paired {F EntityItem EntityItemID Other}.
Arguments editOf {F EntityItem EntityItemID Other}.
Arguments updateTarget {F EntityItem EntityItemID Other}.

Section Frames.
Variables F EntityTree EntityItem EntityItemID Other Avatar Clock : Type.

(* two states that differ at most in the contact buffer *)
Definition sameButBuffer
    (s s' : EntityCollisionSystem F EntityTree EntityItem EntityItemID Other Avatar Clock)
    : Prop :=
  _entityTree s' = _entityTree s
  /\ _movingEntities s' = _movingEntities s
  /\ avatarHashMap s' = avatarHashMap s
  /\ clock s' = clock s
  /\ trace s' = trace s.
End Frames.

(** * ResourceManager.cpp

    A [QString] is a [string]; [PREFIX_MAP], a [std::map<QString, QString>],
    is the list of its entries in ascending order of the keys, which is the
    order [foreach] visits them in; a null [QString] is not told apart from
    the empty one.  Each function holds [PREFIX_MAP_LOCK]
    from its first access of the map to its end, so it runs as one step. *)

Module ResourceManager.
Local Open Scope string_scope.

Definition PrefixMap : Type := list (string * string).

(* PREFIX_MAP[prefix] = replacement *)
Fixpoint assign (prefix replacement : string) (m : PrefixMap) : PrefixMap :=
  match m with
  | [] => [(prefix, replacement)]
  | (key, value) :: m' =>
      match String.compare prefix key with
      | Lt => (prefix, replacement) :: m
      | Eq => (prefix, replacement) :: m'
      | Gt => (key, value) :: assign prefix replacement m'
      end
  end.

(* what qDebug() receives *)
Inductive LogLine :=
| Line (text : string)
| UnknownScheme (scheme url : string).

Record State := mkState {
  PREFIX_MAP : PrefixMap;
  debugLog : list LogLine
}.

Definition setUrlPrefixOverride (prefix replacement : string) (st : State) : State :=
  mkState (assign prefix replacement (PREFIX_MAP st)) (debugLog st).

(* result.replace(0, n, after) *)
Definition replace0 (n : nat) (after result : string) : string :=
  after ++ String.substring n (String.length result - n) result.

(* one pass of the loop of normalizeURL on (result, modified, log) *)
Definition normalizeStep (acc : string * bool * list LogLine) (entry : string * string)
    : string * bool * list LogLine :=
  let '(result, modified, log) := acc in
  let '(prefix, replacement) := entry in
  if String.prefix prefix result then
    (replace0 (String.length prefix) replacement result, true, (log ++ [Line prefix])%list)
  else acc.

(* QString ResourceManager::normalizeURL(const QString& urlString) *)
Definition normalizeURL (urlString : string) (st : State) : string * State :=
  let '(result, modified, log) :=
    fold_left normalizeStep (PREFIX_MAP st) (urlString, false, debugLog st) in
  (result, mkState (PREFIX_MAP st) (if modified then (log ++ [Line result])%list else log)).

(* the keys of the map are strictly ascending *)
Definition keyBefore (a b : string * string) : Prop := String.compare (fst a) (fst b) = Lt.
Definition ascending (m : PrefixMap) : Prop := StronglySorted keyBefore m.

Section Urls.
Variables QUrl QObject : Type.

(** What the file uses of [QUrl], and the scheme names of ResourceManager.h. *)
Class UrlApi := {
  QUrl_of : string -> QUrl;          (* QUrl(const QString&) *)
  toString : QUrl -> string;
  url : QUrl -> string;
  scheme : QUrl -> string;
  toLocalFile : QUrl -> string;
  URL_SCHEME_FILE : string;
  URL_SCHEME_HTTP : string;
  URL_SCHEME_HTTPS : string;
  URL_SCHEME_FTP : string;
  URL_SCHEME_ATP : string
}.

Context {api : UrlApi}.

Inductive ResourceRequest :=
| FileResourceRequest (parent : QObject) (url : QUrl)
| HTTPResourceRequest (parent : QObject) (url : QUrl)
| AssetResourceRequest (parent : QObject) (url : QUrl).

(* QUrl ResourceManager::normalizeURL(const QUrl& originalUrl) *)
Definition normalizeQUrl (originalUrl : QUrl) (st : State) : QUrl * State :=
  let '(normalized, st) := normalizeURL (toString originalUrl) st in
  let url := QUrl_of normalized in
  let scheme := scheme url in
  if negb (String.eqb scheme URL_SCHEME_FILE
           || String.eqb scheme URL_SCHEME_HTTP || String.eqb scheme URL_SCHEME_HTTPS
           || String.eqb scheme URL_SCHEME_FTP
           || String.eqb scheme URL_SCHEME_ATP) then
    let urlWithFileScheme := QUrl_of (URL_SCHEME_FILE ++ ":///" ++ toString url) in
    if negb (String.eqb (toLocalFile urlWithFileScheme) "") then (urlWithFileScheme, st)
    else (url, st)
  else (url, st).

(* nullptr is [None] *)
Definition createResourceRequest (parent : QObject) (url0 : QUrl) (st : State)
    : option ResourceRequest * State :=
  let '(normalizedURL, st) := normalizeQUrl url0 st in
  let scheme := scheme normalizedURL in
  if String.eqb scheme URL_SCHEME_FILE then
    (Some (FileResourceRequest parent normalizedURL), st)
  else if String.eqb scheme URL_SCHEME_HTTP || String.eqb scheme URL_SCHEME_HTTPS
          || String.eqb scheme URL_SCHEME_FTP then
    (Some (HTTPResourceRequest parent normalizedURL), st)
  else if String.eqb scheme URL_SCHEME_ATP then
    (Some (AssetResourceRequest parent normalizedURL), st)
  else
    (None, mkState (PREFIX_MAP st) (debugLog st ++ [UnknownScheme scheme (url url0)])%list).

(* one of the five schemes a request exists for *)
Definition knownScheme (s : string) : bool :=
  String.eqb s URL_SCHEME_FILE || String.eqb s URL_SCHEME_HTTP
  || String.eqb s URL_SCHEME_HTTPS || String.eqb s URL_SCHEME_FTP
  || String.eqb s URL_SCHEME_ATP.

(* the URL a request is for *)
Definition requestUrl (request : ResourceRequest) : QUrl :=
  match request with
  | FileResourceRequest _ u | HTTPResourceRequest _ u | AssetResourceRequest _ u => u
  end.
End Urls.

Arguments URL_SCHEME_FILE {QUrl UrlApi}.
Arguments URL_SCHEME_HTTP {QUrl UrlApi}.
Arguments URL_SCHEME_HTTPS {QUrl UrlApi}.
Arguments URL_SCHEME_FTP {QUrl UrlApi}.
Arguments URL_SCHEME_ATP {QUrl UrlApi}.
Arguments knownScheme {QUrl api}.
Arguments requestUrl {QUrl QObject}.

Arguments FileResourceRequest {QUrl QObject}.
Arguments HTTPResourceRequest {QUrl QObject}.
Arguments AssetResourceRequest {QUrl QObject}.

(* a stand-in for QUrl to run the code with: the scheme is what comes before
   ":", the local file what comes after "file://" *)
Module ToyUrl.
Fixpoint schemeOf (s : string) : string :=
  match s with
  | EmptyString => ""
  | String ":"%char _ => ""
  | String ch s' => String ch (schemeOf s')
  end.
Definition hasColon (s : string) : bool :=
  match String.index 0 ":" s with Some _ => true | None => false end.
Definition localFileOf (s : string) : string :=
  if String.prefix "file://" s then String.substring 7 (String.length s - 7) s else "".

#[export] Instance api : UrlApi string := {|
  QUrl_of s := s;
  toString s := s;
  url s := s;
  scheme s := if hasColon s then schemeOf s else "";
  toLocalFile := localFileOf;
  URL_SCHEME_FILE := "file";
  URL_SCHEME_HTTP := "http";
  URL_SCHEME_HTTPS := "https";
  URL_SCHEME_FTP := "ftp";
  URL_SCHEME_ATP := "atp"
|}.
End ToyUrl.

(* a map with two overrides, and one with none *)
Definition noOverrides : State := mkState [] [].
Definition twoOverrides : State :=
  setUrlPrefixOverride "atp:/models" "http://mirror.example/models"
    (setUrlPrefixOverride "http://old.example" "http://new.example" noOverrides).

End ResourceManager.

(** * Properties *)

Section Properties.
Variables F EntityTree EntityItem QUuid EntityItemID Shape Other Avatar Clock : Type.
Context {scalar : Scalar F}.
Context {world : World F EntityTree EntityItem QUuid EntityItemID Shape Other Avatar Clock}.

Local Abbreviation System :=
  (EntityCollisionSystem F EntityTree EntityItem EntityItemID Other Avatar Clock).
Local Abbreviation CollisionInfo := (CollisionInfo F EntityItem).
Local Abbreviation Properties := (EntityItemProperties F Other).
Local Abbreviation Event := (Event F EntityItem EntityItemID Other).

Local Open Scope float_scope.
Local Open Scope vec_scope.

Ltac run :=
  unfold exec, bind, when, ret, tree, setTree, collisions, setCollisions, emit,
    usecTimestampNow, treeUpdateEntity, queueEditEntityMessage, qDebug; simpl.

(** The state after [applyHardCollision]: an update of the tree, then a
    message for the network, both with the same properties. *)
Lemma applyHardCollision_run (s : System) (entity : EntityItem) (c : CollisionInfo) :
  isKnownID (_entityTree s) entity = true ->
  exec (applyHardCollision entity c) s =
    let t := _entityTree s in
    let pv := hardCollisionResponse (getPosition t entity) (getVelocity t entity) c in
    let properties :=
      setLastEdited
        (setVelocity (setPosition (getProperties t entity) (fst pv *^ scaleF))
           (snd pv *^ scaleF))
        (fst (readClock (clock s))) in
    mkSystem (updateEntity t entity properties) (_movingEntities s) (_collisions s)
      (avatarHashMap s) (snd (readClock (clock s)))
      (trace s ++ [UpdateEntity entity properties;
                   QueueEditEntityMessage (EntityItemID_of (getID t entity)) properties]).
Proof.
  intros Hknown. unfold applyHardCollision. run. rewrite Hknown. simpl.
  destruct (hardCollisionResponse _ _ c) as [position velocity]. run.
  destruct (readClock (clock s)) as [now clock']. simpl.
  rewrite <- app_assoc. reflexivity.
Qed.

Lemma applyHardCollision_unknown (s : System) (entity : EntityItem) (c : CollisionInfo) :
  isKnownID (_entityTree s) entity = false ->
  applyHardCollision entity c s = (tt, s).
Proof.
  intros Hunknown. unfold applyHardCollision. run. rewrite Hunknown. reflexivity.
Qed.

(** C10: a call of the hard-collision response on an entity with a known
    identifier always applies one property update to the tree and queues one
    edit message, both carrying the computed position and velocity (scaled to
    meters) and the timestamp read at that moment, whatever the closing test
    says; with an unknown identifier the call changes nothing at all. *)
Theorem applyHardCollision_always_updates_known
    (s : System) (entity : EntityItem) (c : CollisionInfo) :
  let t := _entityTree s in
  let pv := hardCollisionResponse (getPosition t entity) (getVelocity t entity) c in
  let now := fst (readClock (clock s)) in
  let properties :=
    mkProperties (otherProperties (getProperties t entity))
      (fst pv *^ scaleF) (snd pv *^ scaleF) now in
  exec (applyHardCollision entity c) s =
    if isKnownID t entity then
      mkSystem (updateEntity t entity properties) (_movingEntities s) (_collisions s)
        (avatarHashMap s) (snd (readClock (clock s)))
        (trace s ++ [UpdateEntity entity properties;
                     QueueEditEntityMessage (EntityItemID_of (getID t entity)) properties])
    else s.
Proof.
  intros t pv now properties.
  destruct (isKnownID t entity) eqn:Hknown.
  - rewrite applyHardCollision_run by exact Hknown. reflexivity.
  - unfold exec. rewrite applyHardCollision_unknown by exact Hknown. reflexivity.
Qed.

(** The three ways through lines 268-290. *)
Lemma hardCollisionResponse_separating (position velocity : vec3 F) (c : CollisionInfo) :
  (glm.dot (_addedVelocity c -^ velocity) (_penetration c) <? EPSILON) = false ->
  hardCollisionResponse position velocity c = (position, velocity).
Proof. intros Hsep. unfold hardCollisionResponse. rewrite Hsep. reflexivity. Qed.

Lemma hardCollisionResponse_halting (position velocity : vec3 F) (c : CollisionInfo) :
  (glm.dot (_addedVelocity c -^ velocity) (_penetration c) <? EPSILON) = true ->
  (glm.length (_addedVelocity c -^ velocity) <? HALTING_ENTITY_SPEED) = true ->
  hardCollisionResponse position velocity c =
    (position -^ _penetration c, _addedVelocity c).
Proof.
  intros Hin Hslow. unfold hardCollisionResponse. rewrite Hin, Hslow. reflexivity.
Qed.

Lemma hardCollisionResponse_dynamic (position velocity : vec3 F) (c : CollisionInfo) :
  (glm.dot (_addedVelocity c -^ velocity) (_penetration c) <? EPSILON) = true ->
  (glm.length (_addedVelocity c -^ velocity) <? HALTING_ENTITY_SPEED) = false ->
  hardCollisionResponse position velocity c =
    let relativeVelocity := _addedVelocity c -^ velocity in
    let direction := glm.normalize (_penetration c) in
    (position -^ _penetration c,
     velocity
       +^ (glm.dot relativeVelocity direction * (fofZ 1 + _elasticity c)) ^* direction
       +^ glm.clamp (_damping c) (fofZ 0) (fofZ 1) ^*
            (relativeVelocity -^ glm.dot relativeVelocity direction ^* direction)).
Proof.
  intros Hin Hfast. unfold hardCollisionResponse. rewrite Hin, Hfast. reflexivity.
Qed.

(** C9: when the relative velocity (added velocity minus entity velocity) is
    not strictly negative along the penetration vector, the response computes
    the position and the velocity it was given, and the update that
    [applyHardCollision] issues carries exactly the entity's current position
    and velocity (scaled to meters). *)
Theorem separating_contact_passes_through
    (s : System) (entity : EntityItem) (c : CollisionInfo) :
  let t := _entityTree s in
  (glm.dot (_addedVelocity c -^ getVelocity t entity) (_penetration c) <? EPSILON) = false ->
  hardCollisionResponse (getPosition t entity) (getVelocity t entity) c
    = (getPosition t entity, getVelocity t entity)
  /\ (isKnownID t entity = true ->
      exists properties,
        trace (exec (applyHardCollision entity c) s) =
          trace s ++ [UpdateEntity entity properties;
                      QueueEditEntityMessage (EntityItemID_of (getID t entity)) properties]
        /\ position properties = getPosition t entity *^ scaleF
        /\ velocity properties = getVelocity t entity *^ scaleF).
Proof.
  intros t Hsep. subst t.
  pose proof (hardCollisionResponse_separating
                (getPosition (_entityTree s) entity) _ c Hsep) as Hpv.
  split; [exact Hpv|].
  intros Hknown. rewrite applyHardCollision_run by exact Hknown.
  cbv zeta. rewrite Hpv. simpl. eexists. split; [reflexivity|]. split; reflexivity.
Qed.

(** C6: for a contact that is approaching (strictly negative projection) and
    whose relative speed is strictly below [HALTING_ENTITY_SPEED], the computed
    velocity is the contact's added velocity itself, and the update issued for
    a known entity carries that velocity (scaled to meters). *)
Theorem slow_contact_takes_added_velocity
    (s : System) (entity : EntityItem) (c : CollisionInfo) :
  let t := _entityTree s in
  (glm.dot (_addedVelocity c -^ getVelocity t entity) (_penetration c) <? EPSILON) = true ->
  (glm.length (_addedVelocity c -^ getVelocity t entity) <? HALTING_ENTITY_SPEED) = true ->
  snd (hardCollisionResponse (getPosition t entity) (getVelocity t entity) c)
    = _addedVelocity c
  /\ (isKnownID t entity = true ->
      exists properties,
        trace (exec (applyHardCollision entity c) s) =
          trace s ++ [UpdateEntity entity properties;
                      QueueEditEntityMessage (EntityItemID_of (getID t entity)) properties]
        /\ velocity properties = _addedVelocity c *^ scaleF).
Proof.
  intros t Hin Hslow. subst t.
  pose proof (hardCollisionResponse_halting
                (getPosition (_entityTree s) entity) _ c Hin Hslow) as Hpv.
  split; [rewrite Hpv; reflexivity|].
  intros Hknown. rewrite applyHardCollision_run by exact Hknown.
  cbv zeta. rewrite Hpv. simpl. eexists. split; [reflexivity|]. reflexivity.
Qed.

(** C8: when the tree refuses the write lock, the tick does nothing: the
    state after [updateCollisions] is the state before it (same tree, same
    entities, same contact buffer, same clock, no event added), and the only
    result is [tt]. *)
Theorem updateCollisions_skips_tick_without_lock (s : System) :
  tryLockForWrite (_entityTree s) = None ->
  updateCollisions s = (tt, s).
Proof.
  intros Hfail. unfold updateCollisions. rewrite Hfail. reflexivity.
Qed.

(** ** The scan of the entities overlapping [entityA] *)

Lemma forEach_app {A} (body : A -> M F EntityTree EntityItem EntityItemID Other Avatar Clock unit)
    (l1 l2 : list A) (s : System) :
  exec (forEach (l1 ++ l2) body) s = exec (forEach l2 body) (exec (forEach l1 body) s).
Proof.
  revert s. induction l1 as [|a l1 IH]; intros s; [reflexivity|].
  simpl. unfold exec, bind in *. destruct (body a s) as [u s1]. apply IH.
Qed.

Lemma forEach_cons {A} (body : A -> M F EntityTree EntityItem EntityItemID Other Avatar Clock unit)
    (a : A) (l : list A) (s : System) :
  exec (forEach (a :: l) body) s = exec (forEach l body) (exec (body a) s).
Proof. simpl. unfold exec, bind. destruct (body a s). reflexivity. Qed.

(* a contact that is not resolved leaves no mark *)
Lemma collideWithEntity_skip (s : System) (entityA entityB : EntityItem) (c : CollisionInfo) :
  _extraData c = Some entityB ->
  doCollisions (_entityTree s) entityA entityB (_penetration c) = false ->
  collideWithEntity entityA c s = (tt, s).
Proof.
  intros HB Hno. unfold collideWithEntity. rewrite HB. run.
  destruct (isKnownID (_entityTree s) entityB); simpl; [|reflexivity].
  rewrite Hno. reflexivity.
Qed.

Lemma doCollisions_not_closing (t : EntityTree) (entityA entityB : EntityItem)
    (penetration : vec3 F) :
  (glm.dot (getVelocity t entityA -^ getVelocity t entityB) (penetration /^ scaleF)
     >? fofZ 0) = false ->
  doCollisions t entityA entityB penetration = false.
Proof.
  intros Hapart. unfold doCollisions. rewrite Hapart.
  rewrite andb_false_r. reflexivity.
Qed.

(** C4: a contact whose relative velocity (A minus B) is not strictly
    positive along the penetration vector changes nothing when its turn comes
    (no update, no message, no notification, no clock read), and the scan goes
    on: scanning the contacts with that one among them ends in the same state
    as scanning them without it. *)
Theorem separating_pair_is_skipped_scan_continues
    (s : System) (entityA entityB : EntityItem) (before after : list CollisionInfo)
    (c : CollisionInfo) :
  let s1 := exec (forEach before (collideWithEntity entityA)) s in
  let t1 := _entityTree s1 in
  _extraData c = Some entityB ->
  (glm.dot (getVelocity t1 entityA -^ getVelocity t1 entityB) (_penetration c /^ scaleF)
     >? fofZ 0) = false ->
  collideWithEntity entityA c s1 = (tt, s1)
  /\ exec (forEach (before ++ c :: after) (collideWithEntity entityA)) s
     = exec (forEach (before ++ after) (collideWithEntity entityA)) s.
Proof.
  intros s1 t1 HB Hapart.
  assert (Hskip : collideWithEntity entityA c s1 = (tt, s1)).
  { apply collideWithEntity_skip with (entityB := entityB); [exact HB|].
    apply doCollisions_not_closing. exact Hapart. }
  split; [exact Hskip|].
  rewrite !forEach_app, forEach_cons. fold s1.
  unfold exec at 2. rewrite Hskip. reflexivity.
Qed.

(** C3: for a contact of a movable A with an immovable B, the ratios are 2
    for A and 0 for B whatever the masses.  When the contact is resolved (B
    known, closing, not fully enclosed) the resolution is exactly: one update
    of A in the tree, one edit message for A, one notification; otherwise
    nothing happens.  Either way no update names B, and the tree changes at
    most by the update of A. *)
Theorem movable_against_immovable_updates_only_A
    (s : System) (entityA entityB : EntityItem) (c : CollisionInfo) :
  let t := _entityTree s in
  let penetrationInTreeUnits := _penetration c /^ scaleF in
  let relativeVelocity := getVelocity t entityA -^ getVelocity t entityB in
  _extraData c = Some entityB ->
  getCollisionsWillMove t entityA = true ->
  getCollisionsWillMove t entityB = false ->
  let fullyEnclosedCollision :=
    glm.length penetrationInTreeUnits >? getLargestDimension t entityA in
  let movingTowardEachOther := glm.dot relativeVelocity penetrationInTreeUnits >? fofZ 0 in
  let axis := glm.normalize (_penetration c) in
  let axialVelocity := glm.dot relativeVelocity axis ^* axis in
  let propertiesA :=
    mkProperties (otherProperties (getProperties t entityA))
      ((getPosition t entityA -^ lit 1 2 ^* penetrationInTreeUnits) *^ scaleF)
      ((getVelocity t entityA -^ axialVelocity *^ fofZ 2) *^ scaleF)
      (fst (readClock (clock s))) in
  let t' := updateEntity t entityA propertiesA in
  let events : list Event :=
    [UpdateEntity entityA propertiesA;
     QueueEditEntityMessage (EntityItemID_of (getID t entityA)) propertiesA;
     EntityCollisionWithEntity (getEntityItemID t' entityA) (getEntityItemID t' entityB)
       (mkCollision (_penetration c)
          ((lit 1 2 * scaleF) ^* (getPosition t' entityA +^ getPosition t' entityB)))] in
  (forall massA massB : F, massRatios true false massA massB = (fofZ 2, fofZ 0))
  /\ exec (collideWithEntity entityA c) s =
       (if isKnownID t entityB && negb fullyEnclosedCollision && movingTowardEachOther
        then mkSystem t' (_movingEntities s) (_collisions s) (avatarHashMap s)
               (snd (readClock (clock s))) (trace s ++ events)
        else s)
  /\ entityA <> entityB
  /\ (forall properties, ~ In (UpdateEntity entityB properties) events).
Proof.
  intros t penTU relV HB HA HnotB enclosed closing axis axial propertiesA t' events.
  assert (Hne : entityA <> entityB).
  { intros Heq. rewrite Heq in HA. rewrite HA in HnotB. discriminate. }
  split; [reflexivity|]. split; [|split; [exact Hne|]].
  - unfold collideWithEntity. rewrite HB. run. fold t.
    destruct (isKnownID t entityB); simpl; [|reflexivity].
    unfold doCollisions. fold penTU relV enclosed closing. rewrite HA, HnotB.
    destruct enclosed; simpl; [reflexivity|].
    destruct closing; simpl; [|reflexivity].
    destruct (readClock (clock s)) as [now clock']. simpl.
    unfold emitGlobalEntityCollisionWithEntity. run.
    rewrite <- !app_assoc. reflexivity.
  - intros properties [H|[H|[H|[]]]]; try discriminate.
    injection H as H _. exact (Hne H).
Qed.

(* a resolved contact of two movable entities: A is updated, then B, then the
   notification goes out; the ratios are left as [massRatios] computes them *)
Lemma collideWithEntity_both_movable
    (s : System) (entityA entityB : EntityItem) (c : CollisionInfo) :
  let t := _entityTree s in
  let penetrationInTreeUnits := _penetration c /^ scaleF in
  let relativeVelocity := getVelocity t entityA -^ getVelocity t entityB in
  _extraData c = Some entityB ->
  isKnownID t entityB = true ->
  (glm.length penetrationInTreeUnits >? getLargestDimension t entityA) = false ->
  (glm.dot relativeVelocity penetrationInTreeUnits >? fofZ 0) = true ->
  getCollisionsWillMove t entityA = true ->
  getCollisionsWillMove t entityB = true ->
  let ratios := massRatios true true (computeMass t entityA) (computeMass t entityB) in
  let now := fst (readClock (clock s)) in
  let axis := glm.normalize (_penetration c) in
  let axialVelocity := glm.dot relativeVelocity axis ^* axis in
  let propertiesA :=
    mkProperties (otherProperties (getProperties t entityA))
      ((getPosition t entityA -^ lit 1 2 ^* penetrationInTreeUnits) *^ scaleF)
      ((getVelocity t entityA -^ axialVelocity *^ fst ratios) *^ scaleF) now in
  let t1 := updateEntity t entityA propertiesA in
  let propertiesB :=
    mkProperties (otherProperties (getProperties t1 entityB))
      ((getPosition t1 entityB +^ lit 1 2 ^* penetrationInTreeUnits) *^ scaleF)
      ((getVelocity t1 entityB +^ axialVelocity *^ snd ratios) *^ scaleF) now in
  let t2 := updateEntity t1 entityB propertiesB in
  exec (collideWithEntity entityA c) s =
    mkSystem t2 (_movingEntities s) (_collisions s) (avatarHashMap s)
      (snd (readClock (clock s)))
      (trace s ++
       [UpdateEntity entityA propertiesA;
        QueueEditEntityMessage (EntityItemID_of (getID t entityA)) propertiesA;
        UpdateEntity entityB propertiesB;
        QueueEditEntityMessage (EntityItemID_of (getID t1 entityB)) propertiesB;
        EntityCollisionWithEntity (getEntityItemID t2 entityA) (getEntityItemID t2 entityB)
          (mkCollision (_penetration c)
             ((lit 1 2 * scaleF) ^* (getPosition t2 entityA +^ getPosition t2 entityB)))]).
Proof.
  intros t penTU relV HB HknownB Hencl Hclosing HA HmoveB ratios now axis axial
    propertiesA t1 propertiesB t2.
  subst propertiesA t1 propertiesB t2 ratios now.
  destruct (massRatios true true (computeMass t entityA) (computeMass t entityB))
    as [massRatioA massRatioB] eqn:Hratios.
  unfold collideWithEntity. rewrite HB.
  unfold exec, bind, when, ret, tree, setTree, emit, usecTimestampNow,
    treeUpdateEntity, queueEditEntityMessage, emitGlobalEntityCollisionWithEntity.
  cbn [_entityTree fst snd]. fold t. rewrite HknownB. cbn [negb].
  unfold doCollisions. fold penTU relV. rewrite Hencl, Hclosing, HA, HmoveB.
  cbn [negb andb orb]. rewrite Hratios.
  destruct (readClock (clock s)) as [now clock']. cbn.
  rewrite <- !app_assoc. reflexivity.
Qed.

(** ** The contact buffers *)

Local Abbreviation CollisionList := (CollisionList F EntityItem).

Lemma addCollisions_maxSize (cs : list CollisionInfo) (l : CollisionList) :
  maxSize (addCollisions l cs) = maxSize l.
Proof.
  revert l. induction cs as [|c cs IH]; intros l; [reflexivity|].
  simpl. rewrite IH. unfold addCollision. destruct (size l <? maxSize l)%nat; reflexivity.
Qed.

(* a list takes what fits, in order, and drops the rest *)
Lemma addCollisions_items (cs : list CollisionInfo) (l : CollisionList) :
  size l <= maxSize l ->
  items (addCollisions l cs) = items l ++ firstn (maxSize l - size l) cs.
Proof.
  revert l. induction cs as [|c cs IH]; intros l Hfit.
  - simpl. rewrite firstn_nil, app_nil_r. reflexivity.
  - change (addCollisions l (c :: cs)) with (addCollisions (addCollision l c) cs).
    unfold addCollision. destruct (Nat.ltb_spec (size l) (maxSize l)) as [Hroom|Hfull].
    + rewrite IH; unfold size in *; simpl; rewrite ?length_app; simpl; [|lia].
      replace (maxSize l - List.length (items l))%nat
        with (S (maxSize l - (List.length (items l) + 1)))%nat by lia.
      simpl. rewrite <- app_assoc. reflexivity.
    + rewrite IH by exact Hfit.
      replace (maxSize l - size l)%nat with 0%nat by lia. reflexivity.
Qed.

Lemma addCollisions_size (cs : list CollisionInfo) (l : CollisionList) :
  size l <= maxSize l ->
  size (addCollisions l cs) = Nat.min (maxSize l) (size l + List.length cs).
Proof.
  intros Hfit. unfold size in *. rewrite addCollisions_items by exact Hfit.
  rewrite length_app, length_firstn. unfold size. lia.
Qed.

Lemma entityContacts_items (t : EntityTree) (entityA : EntityItem) :
  items (snd (entityContacts t entityA))
    = firstn MAX_COLLISIONS_PER_ENTITY (shapeOverlaps t (getCollisionShapeInMeters t entityA)).
Proof.
  unfold entityContacts, findShapeCollisions. simpl.
  rewrite addCollisions_items by (unfold size; simpl; lia). reflexivity.
Qed.

Lemma setNth_length {A} (l : list A) (i : nat) (a : A) :
  List.length (setNth l i a) = List.length l.
Proof.
  revert i. induction l as [|b l IH]; intros [|i]; simpl; try reflexivity.
  rewrite IH. reflexivity.
Qed.

Lemma forEach_invariant {A} (P : System -> Prop)
    (body : A -> M F EntityTree EntityItem EntityItemID Other Avatar Clock unit) (l : list A) :
  (forall a s, P s -> P (exec (body a) s)) ->
  forall s, P s -> P (exec (forEach l body) s).
Proof.
  intros Hbody. induction l as [|a l IH]; intros s Hs; [exact Hs|].
  rewrite forEach_cons. apply IH, Hbody, Hs.
Qed.

Lemma applyHardCollision_collisions (s : System) (entity : EntityItem) (c : CollisionInfo) :
  _collisions (exec (applyHardCollision entity c) s) = _collisions s.
Proof.
  destruct (isKnownID (_entityTree s) entity) eqn:Hknown.
  - rewrite applyHardCollision_run by exact Hknown. reflexivity.
  - unfold exec. rewrite applyHardCollision_unknown by exact Hknown. reflexivity.
Qed.

Lemma collideWithAvatarContact_buffer (cap : nat) (entity : EntityItem) (i : nat) (s : System) :
  bufferWithin cap s -> bufferWithin cap (exec (collideWithAvatarContact entity i) s).
Proof.
  intros [Hcap Hsize]. unfold collideWithAvatarContact, storeCollision. run.
  destruct (getCollision (_collisions s) i) as [c|]; [|split; assumption].
  simpl. match goal with |- context [if ?b then _ else _] => destruct b end.
  - run.
    match goal with
    | |- bufferWithin _ (snd (applyHardCollision ?e ?c' ?s')) =>
        change (bufferWithin cap (exec (applyHardCollision e c') s'))
    end.
    unfold bufferWithin. rewrite applyHardCollision_collisions. simpl.
    unfold size in *. simpl. rewrite !setNth_length. split; assumption.
  - simpl. unfold bufferWithin, size in *. simpl. rewrite setNth_length. split; assumption.
Qed.

Lemma collideWithAvatar_buffer (cap : nat) (entity : EntityItem) (center : vec3 F) (radius : F)
    (avatar : Avatar) (s : System) :
  bufferWithin cap s -> bufferWithin cap (exec (collideWithAvatar entity center radius avatar) s).
Proof.
  intros [Hcap Hsize]. unfold collideWithAvatar.
  match goal with |- context [if ?b then _ else _] => destruct b end;
    [split; assumption|].
  unfold findSphereCollisions. run.
  set (s1 := mkSystem _ _ _ _ _ _).
  assert (Hs1 : bufferWithin cap s1).
  { unfold bufferWithin, s1. simpl. rewrite addCollisions_maxSize.
    rewrite addCollisions_size by lia. split; [exact Hcap | lia]. }
  match goal with |- context [if ?b then _ else _] => destruct b end; [|exact Hs1].
  apply (forEach_invariant (bufferWithin cap)); [|exact Hs1].
  intros i s2. apply collideWithAvatarContact_buffer.
Qed.

Lemma updateCollisionWithAvatars_buffer (cap : nat) (entity : EntityItem) (s : System) :
  bufferWithin cap s -> bufferWithin cap (exec (updateCollisionWithAvatars entity) s).
Proof.
  intros [Hcap Hsize]. unfold updateCollisionWithAvatars, exec.
  destruct (avatarHashMap s) as [avatars|]; [|split; assumption].
  run. match goal with |- context [if ?b then _ else _] => destruct b end;
    [split; assumption|].
  simpl. apply (forEach_invariant (bufferWithin cap)).
  - intros a s1. apply collideWithAvatar_buffer.
  - split; simpl; [exact Hcap | unfold size; simpl; lia].
Qed.

(* the entity-pair path has its own list and leaves the buffer alone *)
Lemma collideWithEntity_collisions (entityA : EntityItem) (c : CollisionInfo) (s : System) :
  _collisions (exec (collideWithEntity entityA c) s) = _collisions s.
Proof.
  unfold collideWithEntity. destruct (_extraData c) as [entityB|]; [|reflexivity].
  run. destruct (isKnownID (_entityTree s) entityB); [|reflexivity]. simpl.
  destruct (doCollisions (_entityTree s) entityA entityB (_penetration c)); [|reflexivity].
  destruct (readClock (clock s)) as [now clock']. simpl.
  destruct (massRatios _ _ _ _) as [massRatioA massRatioB].
  unfold emitGlobalEntityCollisionWithEntity. run.
  destruct (getCollisionsWillMove (_entityTree s) entityA),
    (getCollisionsWillMove (_entityTree s) entityB); reflexivity.
Qed.

Lemma updateCollisionWithEntities_buffer (cap : nat) (entityA : EntityItem) (s : System) :
  bufferWithin cap s -> bufferWithin cap (exec (updateCollisionWithEntities entityA) s).
Proof.
  intros Hs. unfold updateCollisionWithEntities. run.
  destruct (getIgnoreForCollisions (_entityTree s) entityA); [exact Hs|].
  destruct (isKnownID (_entityTree s) entityA); [|exact Hs]. simpl.
  match goal with |- context [if ?b then _ else _] => destruct b end; [|exact Hs].
  match goal with
  | |- bufferWithin _ (snd (forEach ?l ?body ?s1)) =>
      change (bufferWithin cap (exec (forEach l body) s1))
  end.
  apply (forEach_invariant (bufferWithin cap)); [|exact Hs].
  intros c s1 Hs1. unfold bufferWithin. rewrite collideWithEntity_collisions. exact Hs1.
Qed.

(** The bound on the buffer holds from [init] on and is kept by every tick. *)
Lemma updateCollisions_buffer (cap : nat) (s : System) :
  bufferWithin cap s -> bufferWithin cap (exec updateCollisions s).
Proof.
  intros Hs. unfold updateCollisions, exec.
  destruct (tryLockForWrite (_entityTree s)) as [locked|]; [|exact Hs].
  run.
  match goal with
  | |- context [forEach ?l ?body ?s1] =>
      assert (H1 : bufferWithin cap (exec (forEach l body) s1));
      [|unfold exec in H1; destruct (forEach l body s1) as [u s2]; exact H1]
  end.
  apply (forEach_invariant (bufferWithin cap)); [|exact Hs].
  intros entity s1 Hs1. unfold checkEntity.
  unfold exec, bind.
  pose proof (updateCollisionWithEntities_buffer entity Hs1) as H2. unfold exec in H2.
  destruct (updateCollisionWithEntities entity s1) as [u s2].
  apply (updateCollisionWithAvatars_buffer entity H2).
Qed.

(** ** One pass over the avatar contact buffer *)

Lemma setNth_setNth {A} (l : list A) (i : nat) (a b : A) :
  setNth (setNth l i a) i b = setNth l i b.
Proof.
  revert i. induction l as [|x l IH]; intros [|i]; simpl; try reflexivity.
  rewrite IH. reflexivity.
Qed.

(* what the pass does to the record at index [i]: the annotation is written
   whether or not the contact is then applied *)
Lemma collideWithAvatarContact_items (entity : EntityItem) (i : nat) (s : System)
    (c : CollisionInfo) :
  getCollision (_collisions s) i = Some c ->
  exists c',
    items (_collisions (exec (collideWithAvatarContact entity i) s))
      = setNth (items (_collisions s)) i c'
    /\ _addedVelocity c' = _addedVelocity c /^ scaleF
    /\ _damping c' = DAMPING /\ _elasticity c' = ELASTICITY
    /\ (_penetration c' = _penetration c \/ _penetration c' = _penetration c /^ scaleF).
Proof.
  intros Hget. unfold collideWithAvatarContact, storeCollision. run. rewrite Hget. simpl.
  match goal with |- context [if ?b then _ else _] => destruct b end.
  - run.
    match goal with
    | |- context [snd (applyHardCollision ?e ?c' ?s')] =>
        change (snd (applyHardCollision e c' s')) with (exec (applyHardCollision e c') s')
    end.
    rewrite applyHardCollision_collisions. simpl. rewrite setNth_setNth.
    eexists. split; [reflexivity|]. simpl.
    split; [reflexivity|]. split; [reflexivity|]. split; [reflexivity|].
    right. reflexivity.
  - simpl. eexists. split; [reflexivity|]. simpl.
    split; [reflexivity|]. split; [reflexivity|]. split; [reflexivity|].
    left. reflexivity.
Qed.

Lemma setNth_middle {A} (pre post : list A) (a b : A) :
  setNth (pre ++ a :: post) (List.length pre) b = pre ++ b :: post.
Proof. induction pre as [|x pre IH]; simpl; [reflexivity|]. rewrite IH. reflexivity. Qed.

Lemma firstn_skipn_middle {A} (pre post : list A) (a : A) :
  firstn (List.length pre) (pre ++ a :: post) = pre
  /\ skipn (List.length pre) (pre ++ a :: post) = a :: post
  /\ firstn (S (List.length pre)) (pre ++ a :: post) = pre ++ [a]
  /\ skipn (S (List.length pre)) (pre ++ a :: post) = post.
Proof.
  induction pre as [|x pre (H1 & H2 & H3 & H4)]; simpl.
  - repeat split; reflexivity.
  - simpl in H3, H4. rewrite H1, H2, H3, H4. repeat split; reflexivity.
Qed.

(* the indices [k], [k+1], ... of the buffer have been visited: every record
   from [k] on has had its added velocity divided by the scale *)
Lemma annotation_pass_from (entity : EntityItem) (m k : nat) (s : System) :
  (k + m)%nat = size (_collisions s) ->
  map (@_addedVelocity F EntityItem)
      (items (_collisions (exec (forEach (seq k m) (collideWithAvatarContact entity)) s)))
    = map (@_addedVelocity F EntityItem) (firstn k (items (_collisions s)))
      ++ map (fun c => _addedVelocity c /^ scaleF) (skipn k (items (_collisions s))).
Proof.
  revert k s. induction m as [|m IH]; intros k s Hlen; unfold size in Hlen.
  - simpl. unfold exec, ret. simpl.
    rewrite firstn_all2, skipn_all2 by lia. simpl. rewrite app_nil_r. reflexivity.
  - change (seq k (S m)) with (k :: seq (S k) m). rewrite forEach_cons.
    destruct (nth_error (items (_collisions s)) k) as [c|] eqn:Hnth;
      [|apply nth_error_None in Hnth; lia].
    destruct (collideWithAvatarContact_items entity k s Hnth)
      as (c' & Hitems & Hadded & _).
    destruct (nth_error_split _ _ Hnth) as (pre & post & Hl & Hpre).
    rewrite IH.
    + rewrite Hitems, Hl. subst k. rewrite setNth_middle.
      destruct (firstn_skipn_middle pre post c') as (_ & _ & -> & ->).
      destruct (firstn_skipn_middle pre post c) as (-> & -> & _ & _).
      rewrite map_app. simpl. rewrite Hadded, <- app_assoc. reflexivity.
    + unfold size. rewrite Hitems, setNth_length. lia.
Qed.

(** Every pass over [_collisions] divides the added velocity of every
    record in it by the scale, whichever avatar the record came from. *)
Lemma annotation_pass_rescales_every_contact (entity : EntityItem) (s : System) :
  map (@_addedVelocity F EntityItem)
      (items (_collisions
         (exec (forEach (seq 0 (size (_collisions s))) (collideWithAvatarContact entity)) s)))
    = map (fun c => _addedVelocity c /^ scaleF) (items (_collisions s)).
Proof. rewrite annotation_pass_from by reflexivity. reflexivity. Qed.

(** Checking an avatar that passes the broad test and reports a contact
    rescales the whole buffer: the records left by the avatars checked before
    have their added velocity divided once more, together with the new ones. *)
Lemma collideWithAvatar_rescales_buffer (entity : EntityItem) (center : vec3 F) (radius : F)
    (avatar : Avatar) (s : System) :
  let totalRadius := getBoundingRadius avatar + radius in
  let relativePosition := center -^ getAvatarPosition avatar in
  (glm.dot relativePosition relativePosition >? totalRadius * totalRadius) = false ->
  size (_collisions s) < maxSize (_collisions s) ->
  sphereOverlaps avatar center radius <> [] ->
  map (@_addedVelocity F EntityItem)
      (items (_collisions (exec (collideWithAvatar entity center radius avatar) s)))
    = map (fun c => _addedVelocity c /^ scaleF)
        (items (_collisions s)
         ++ firstn (maxSize (_collisions s) - size (_collisions s))
              (sphereOverlaps avatar center radius)).
Proof.
  intros totalRadius relativePosition Hnear Hroom Hsome.
  unfold collideWithAvatar. fold totalRadius relativePosition. rewrite Hnear.
  unfold findSphereCollisions. run.
  set (found := sphereOverlaps avatar center radius) in *.
  assert (Hgrow : (size (_collisions s) <? size (addCollisions (_collisions s) found))%nat
                  = true).
  { apply Nat.ltb_lt. rewrite addCollisions_size by lia.
    destruct found as [|c found]; [contradiction|]. simpl. lia. }
  rewrite Hgrow.
  match goal with
  | |- context [snd (forEach ?l ?body ?s1)] =>
      change (snd (forEach l body s1)) with (exec (forEach l body) s1);
      change (size (addCollisions (_collisions s) found)) with (size (_collisions s1))
  end.
  rewrite annotation_pass_rescales_every_contact. simpl.
  rewrite addCollisions_items by lia. reflexivity.
Qed.

(** C2 (amended): the two paths have separate caps, both compile-time
    constants: the avatar resolver's buffer [_collisions] is made with
    capacity [MAX_COLLISIONS_PER_Entity] = 16 and never holds more, while the
    entity-pair resolver works on a list of capacity
    [MAX_COLLISIONS_PER_ENTITY] = 32: it gets the first 32 overlaps the tree
    reports and the rest is dropped.  The bound on [_collisions] holds from
    [init] on and through every tick.  Both scans are total functions. *)
Theorem contact_caps_are_separate_constants (s : System) (entity : EntityItem) :
  bufferWithin MAX_COLLISIONS_PER_Entity s ->
  let t := _entityTree s in
  MAX_COLLISIONS_PER_Entity = 16%nat
  /\ MAX_COLLISIONS_PER_ENTITY = 32%nat
  /\ maxSize (snd (entityContacts t entity)) = 32%nat
  /\ items (snd (entityContacts t entity))
     = firstn 32 (shapeOverlaps t (getCollisionShapeInMeters t entity))
  /\ bufferWithin 16 (exec (updateCollisionWithAvatars entity) s)
  /\ bufferWithin 16 (exec updateCollisions s)
  /\ (forall entities moving avatars c,
        bufferWithin 16 (init entities moving avatars c : System)).
Proof.
  intros Hs t.
  split; [reflexivity|]. split; [reflexivity|]. split; [|split; [|split; [|split]]].
  - unfold entityContacts, findShapeCollisions. simpl. apply addCollisions_maxSize.
  - apply entityContacts_items.
  - apply (updateCollisionWithAvatars_buffer entity Hs).
  - apply (updateCollisions_buffer Hs).
  - intros entities moving avatars c. split; [reflexivity|].
    unfold init, size. simpl. lia.
Qed.

(** ** Entities that are left alone *)

Lemma forEach_noop {A} (body : A -> M F EntityTree EntityItem EntityItemID Other Avatar Clock unit)
    (l : list A) (s : System) :
  (forall a, In a l -> body a s = (tt, s)) -> forEach l body s = (tt, s).
Proof.
  induction l as [|a l IH]; intros Hbody; [reflexivity|].
  simpl. unfold bind. rewrite (Hbody a (or_introl eq_refl)).
  apply IH. intros b Hb. apply Hbody. right. exact Hb.
Qed.

Lemma checkEntity_ignored (s : System) (entity : EntityItem) :
  getIgnoreForCollisions (_entityTree s) entity = true ->
  checkEntity entity s = (tt, s).
Proof.
  intros Hignore. unfold checkEntity, updateCollisionWithEntities. run.
  rewrite Hignore. simpl. unfold updateCollisionWithAvatars.
  destruct (avatarHashMap s); [|reflexivity].
  run. rewrite Hignore. reflexivity.
Qed.

(** X1: a tick over entities that all ignore collisions takes the lock and
    releases it, and does nothing else: no entity is scanned against the tree
    or the avatars, the contact buffer is not even cleared, no clock is read
    and no event is produced. *)
Theorem tick_over_ignored_entities_only_locks (s : System) (locked : EntityTree) :
  tryLockForWrite (_entityTree s) = Some locked ->
  (forall entity, In entity (_movingEntities s) ->
     getIgnoreForCollisions locked entity = true) ->
  exec updateCollisions s =
    mkSystem (unlock locked) (_movingEntities s) (_collisions s) (avatarHashMap s)
      (clock s) (trace s).
Proof.
  intros Hlock Hignore. unfold updateCollisions, exec. rewrite Hlock. run.
  rewrite forEach_noop; [reflexivity|].
  intros entity Hin. apply checkEntity_ignored. simpl. apply Hignore, Hin.
Qed.

Lemma sameButBuffer_refl (s : System) : sameButBuffer s s.
Proof. repeat split. Qed.

Lemma sameButBuffer_trans (s1 s2 s3 : System) :
  sameButBuffer s1 s2 -> sameButBuffer s2 s3 -> sameButBuffer s1 s3.
Proof.
  intros (H1 & H2 & H3 & H4 & H5) (K1 & K2 & K3 & K4 & K5).
  repeat split; congruence.
Qed.

Lemma collideWithAvatarContact_unknown (entity : EntityItem) (i : nat) (s : System) :
  isKnownID (_entityTree s) entity = false ->
  sameButBuffer s (exec (collideWithAvatarContact entity i) s).
Proof.
  intros Hunknown. unfold collideWithAvatarContact, storeCollision. run.
  destruct (getCollision (_collisions s) i) as [c|]; [|apply sameButBuffer_refl].
  simpl. match goal with |- context [if ?b then _ else _] => destruct b end.
  - run. rewrite applyHardCollision_unknown by exact Hunknown. repeat split.
  - repeat split.
Qed.

Lemma forEach_sameButBuffer {A}
    (body : A -> M F EntityTree EntityItem EntityItemID Other Avatar Clock unit)
    (P : System -> Prop) (l : list A) :
  (forall a s, P s -> sameButBuffer s (exec (body a) s) /\ P (exec (body a) s)) ->
  forall s, P s -> sameButBuffer s (exec (forEach l body) s).
Proof.
  intros Hbody. induction l as [|a l IH]; intros s Hs; [apply sameButBuffer_refl|].
  rewrite forEach_cons. destruct (Hbody a s Hs) as [Hsame HP].
  exact (sameButBuffer_trans Hsame (IH _ HP)).
Qed.

(* the identifier stays unknown as long as the tree is the same *)
Lemma unknown_kept (entity : EntityItem) (s s' : System) :
  isKnownID (_entityTree s) entity = false -> sameButBuffer s s' ->
  isKnownID (_entityTree s') entity = false.
Proof. intros Hunknown (Htree & _). rewrite Htree. exact Hunknown. Qed.

Lemma collideWithAvatar_unknown (entity : EntityItem) (center : vec3 F) (radius : F)
    (avatar : Avatar) (s : System) :
  isKnownID (_entityTree s) entity = false ->
  sameButBuffer s (exec (collideWithAvatar entity center radius avatar) s).
Proof.
  intros Hunknown. unfold collideWithAvatar.
  match goal with |- context [if ?b then _ else _] => destruct b end;
    [apply sameButBuffer_refl|].
  unfold findSphereCollisions. run.
  match goal with |- context [if ?b then _ else _] => destruct b end; [|repeat split].
  match goal with
  | |- sameButBuffer _ (snd (forEach ?l ?body ?s1)) =>
      change (sameButBuffer s (exec (forEach l body) s1));
      apply sameButBuffer_trans with (s2 := s1); [repeat split|];
      apply (forEach_sameButBuffer body
               (fun s' => isKnownID (_entityTree s') entity = false)); [|exact Hunknown]
  end.
  intros i s2 Hs2. pose proof (collideWithAvatarContact_unknown entity i s2 Hs2) as Hsame.
  split; [exact Hsame | exact (unknown_kept entity Hs2 Hsame)].
Qed.

(** X2: an entity whose identifier is unknown is never a source of changes:
    whatever the tree and the avatars report, [checkEntity] leaves the tree,
    the clock and the trace as they are (no update, no edit message, no
    notification); only the avatar contact buffer may be rewritten. *)
Theorem unknown_entity_changes_nothing_but_buffer (s : System) (entity : EntityItem) :
  isKnownID (_entityTree s) entity = false ->
  sameButBuffer s (exec (checkEntity entity) s).
Proof.
  intros Hunknown. unfold checkEntity, exec, bind.
  assert (Hpairs : updateCollisionWithEntities entity s = (tt, s)).
  { unfold updateCollisionWithEntities. run.
    destruct (getIgnoreForCollisions (_entityTree s) entity); [reflexivity|].
    rewrite Hunknown. reflexivity. }
  rewrite Hpairs. unfold updateCollisionWithAvatars.
  destruct (avatarHashMap s) as [avatars|]; [|apply sameButBuffer_refl].
  run. match goal with |- context [if ?b then _ else _] => destruct b end;
    [apply sameButBuffer_refl|]. simpl.
  match goal with
  | |- sameButBuffer _ (snd (forEach ?l ?body ?s1)) =>
      change (sameButBuffer s (exec (forEach l body) s1));
      apply sameButBuffer_trans with (s2 := s1); [repeat split|];
      apply (forEach_sameButBuffer body
               (fun s' => isKnownID (_entityTree s') entity = false)); [|exact Hunknown]
  end.
  intros avatar s2 Hs2.
  assert (Hsame : sameButBuffer s2
            (exec (collideWithAvatar entity
                     (getPosition (_entityTree s) entity *^ scaleF)
                     (getRadius (_entityTree s) entity * scaleF) avatar) s2))
    by (apply collideWithAvatar_unknown; exact Hs2).
  split; [exact Hsame | exact (unknown_kept entity Hs2 Hsame)].
Qed.

(** X3: a contact is also passed over when its counterpart has an unknown
    identifier, when the penetration is longer than A's largest dimension
    (whatever the velocities), or when neither side is movable: nothing
    changes at its turn, and the scan with it ends in the same state as the
    scan without it. *)
Theorem unresolved_pair_is_skipped_scan_continues
    (s : System) (entityA entityB : EntityItem) (before after : list CollisionInfo)
    (c : CollisionInfo) :
  let s1 := exec (forEach before (collideWithEntity entityA)) s in
  let t1 := _entityTree s1 in
  _extraData c = Some entityB ->
  isKnownID t1 entityB = false
  \/ (glm.length (_penetration c /^ scaleF) >? getLargestDimension t1 entityA) = true
  \/ (getCollisionsWillMove t1 entityA = false /\ getCollisionsWillMove t1 entityB = false) ->
  collideWithEntity entityA c s1 = (tt, s1)
  /\ exec (forEach (before ++ c :: after) (collideWithEntity entityA)) s
     = exec (forEach (before ++ after) (collideWithEntity entityA)) s.
Proof.
  intros s1 t1 HB Hwhy.
  assert (Hskip : collideWithEntity entityA c s1 = (tt, s1)).
  { destruct Hwhy as [Hunknown | [Henclosed | [HA HnotB]]].
    - unfold collideWithEntity. rewrite HB. run. fold t1. rewrite Hunknown. reflexivity.
    - apply collideWithEntity_skip with (entityB := entityB); [exact HB|].
      unfold doCollisions. fold t1. rewrite Henclosed. reflexivity.
    - apply collideWithEntity_skip with (entityB := entityB); [exact HB|].
      unfold doCollisions. fold t1. rewrite HA, HnotB. simpl.
      apply andb_false_r. }
  split; [exact Hskip|].
  rewrite !forEach_app, forEach_cons. fold s1.
  unfold exec at 2. rewrite Hskip. reflexivity.
Qed.

(** X4: the mirror of the movable-against-immovable case: when A is
    immovable and B movable the ratios are 0 for A and 2 for B whatever the
    masses, a resolved contact is exactly one update of B (half the
    penetration added to its position), one edit message for B and one
    notification, and no update names A. *)
Theorem immovable_against_movable_updates_only_B
    (s : System) (entityA entityB : EntityItem) (c : CollisionInfo) :
  let t := _entityTree s in
  let penetrationInTreeUnits := _penetration c /^ scaleF in
  let relativeVelocity := getVelocity t entityA -^ getVelocity t entityB in
  _extraData c = Some entityB ->
  getCollisionsWillMove t entityA = false ->
  getCollisionsWillMove t entityB = true ->
  let fullyEnclosedCollision :=
    glm.length penetrationInTreeUnits >? getLargestDimension t entityA in
  let movingTowardEachOther := glm.dot relativeVelocity penetrationInTreeUnits >? fofZ 0 in
  let axis := glm.normalize (_penetration c) in
  let axialVelocity := glm.dot relativeVelocity axis ^* axis in
  let propertiesB :=
    mkProperties (otherProperties (getProperties t entityB))
      ((getPosition t entityB +^ lit 1 2 ^* penetrationInTreeUnits) *^ scaleF)
      ((getVelocity t entityB +^ axialVelocity *^ fofZ 2) *^ scaleF)
      (fst (readClock (clock s))) in
  let t' := updateEntity t entityB propertiesB in
  let events : list Event :=
    [UpdateEntity entityB propertiesB;
     QueueEditEntityMessage (EntityItemID_of (getID t entityB)) propertiesB;
     EntityCollisionWithEntity (getEntityItemID t' entityA) (getEntityItemID t' entityB)
       (mkCollision (_penetration c)
          ((lit 1 2 * scaleF) ^* (getPosition t' entityA +^ getPosition t' entityB)))] in
  (forall massA massB : F, massRatios false true massA massB = (fofZ 0, fofZ 2))
  /\ exec (collideWithEntity entityA c) s =
       (if isKnownID t entityB && negb fullyEnclosedCollision && movingTowardEachOther
        then mkSystem t' (_movingEntities s) (_collisions s) (avatarHashMap s)
               (snd (readClock (clock s))) (trace s ++ events)
        else s)
  /\ (forall properties, ~ In (UpdateEntity entityA properties) events).
Proof.
  intros t penTU relV HB HnotA HmoveB enclosed closing axis axial propertiesB t' events.
  assert (Hne : entityB <> entityA).
  { intros Heq. rewrite Heq in HmoveB. rewrite HmoveB in HnotA. discriminate. }
  split; [reflexivity|]. split.
  - unfold collideWithEntity. rewrite HB. run. fold t.
    destruct (isKnownID t entityB); simpl; [|reflexivity].
    unfold doCollisions. fold penTU relV enclosed closing. rewrite HnotA, HmoveB.
    destruct enclosed; simpl; [reflexivity|].
    destruct closing; simpl; [|reflexivity].
    destruct (readClock (clock s)) as [now clock']. simpl.
    unfold emitGlobalEntityCollisionWithEntity. run.
    rewrite <- !app_assoc. reflexivity.
  - intros properties [H|[H|[H|[]]]]; try discriminate.
    injection H as H _. exact (Hne H).
Qed.

(** ** What a scan may add to the trace *)

Lemma paired_app (a b : list Event) : paired a -> paired b -> paired (a ++ b).
Proof. intros Ha Hb. induction Ha; simpl; try constructor; assumption. Qed.

(* a loop adds the events its passes add *)
Lemma forEach_events {A} (P : list Event -> Prop)
    (body : A -> M F EntityTree EntityItem EntityItemID Other Avatar Clock unit) (l : list A) :
  P [] ->
  (forall a b, P a -> P b -> P (a ++ b)) ->
  (forall a s, In a l -> exists events, trace (exec (body a) s) = trace s ++ events /\ P events) ->
  forall s, exists events, trace (exec (forEach l body) s) = trace s ++ events /\ P events.
Proof.
  intros Hnil Happ. induction l as [|a l IH]; intros Hbody s.
  - exists []. split; [simpl; rewrite app_nil_r; reflexivity | exact Hnil].
  - rewrite forEach_cons.
    destruct (Hbody a s (or_introl eq_refl)) as (e1 & H1 & P1).
    destruct (IH (fun b s' Hb => Hbody b s' (or_intror Hb)) (exec (body a) s))
      as (e2 & H2 & P2).
    exists (e1 ++ e2). split; [rewrite H2, H1, app_assoc; reflexivity | apply Happ; assumption].
Qed.

Lemma applyHardCollision_events (entity : EntityItem) (c : CollisionInfo) (s : System) :
  exists events,
    trace (exec (applyHardCollision entity c) s) = trace s ++ events
    /\ paired events /\ Forall (editOf entity) events.
Proof.
  destruct (isKnownID (_entityTree s) entity) eqn:Hknown.
  - rewrite applyHardCollision_run by exact Hknown. cbv zeta. simpl.
    eexists. split; [reflexivity|]. split.
    + repeat constructor.
    + repeat constructor.
  - unfold exec. rewrite applyHardCollision_unknown by exact Hknown. simpl.
    exists []. rewrite app_nil_r. repeat constructor.
Qed.

Lemma collideWithAvatarContact_events (entity : EntityItem) (i : nat) (s : System) :
  exists events,
    trace (exec (collideWithAvatarContact entity i) s) = trace s ++ events
    /\ paired events /\ Forall (editOf entity) events.
Proof.
  unfold collideWithAvatarContact, storeCollision. run.
  destruct (getCollision (_collisions s) i) as [c|];
    [|exists []; simpl; rewrite app_nil_r; repeat constructor].
  simpl. match goal with |- context [if ?b then _ else _] => destruct b end.
  - run.
    match goal with
    | |- context [snd (applyHardCollision ?e ?c' ?s')] =>
        destruct (applyHardCollision_events e c' s') as (events & Htrace & Hshape)
    end.
    exists events. split; [exact Htrace | exact Hshape].
  - exists []. simpl. rewrite app_nil_r. repeat constructor.
Qed.

Lemma avatar_events_app (entity : EntityItem) (a b : list Event) :
  paired a /\ Forall (editOf entity) a ->
  paired b /\ Forall (editOf entity) b ->
  paired (a ++ b) /\ Forall (editOf entity) (a ++ b).
Proof.
  intros [Pa Fa] [Pb Fb]. split; [apply paired_app; assumption|].
  apply Forall_app. split; assumption.
Qed.

Lemma collideWithAvatar_events (entity : EntityItem) (center : vec3 F) (radius : F)
    (avatar : Avatar) (s : System) :
  exists events,
    trace (exec (collideWithAvatar entity center radius avatar) s) = trace s ++ events
    /\ (paired events /\ Forall (editOf entity) events).
Proof.
  unfold collideWithAvatar.
  match goal with |- context [if ?b then _ else _] => destruct b end;
    [exists []; simpl; rewrite app_nil_r; repeat constructor|].
  unfold findSphereCollisions. run.
  match goal with |- context [if ?b then _ else _] => destruct b end;
    [|exists []; simpl; rewrite app_nil_r; repeat constructor].
  match goal with
  | |- context [snd (forEach ?l ?body ?s1)] =>
      change (snd (forEach l body s1)) with (exec (forEach l body) s1);
      change (trace s) with (trace s1)
  end.
  apply (forEach_events (fun events => paired events /\ Forall (editOf entity) events)).
  - repeat constructor.
  - intros a b. apply avatar_events_app.
  - intros i s2 _. apply collideWithAvatarContact_events.
Qed.

Lemma updateCollisionWithAvatars_events (s : System) (entity : EntityItem) :
  exists events,
    trace (exec (updateCollisionWithAvatars entity) s) = trace s ++ events
    /\ paired events
    /\ Forall (editOf entity) events.
Proof.
  unfold updateCollisionWithAvatars, exec.
  destruct (avatarHashMap s) as [avatars|];
    [|exists []; simpl; rewrite app_nil_r; repeat constructor].
  run. match goal with |- context [if ?b then _ else _] => destruct b end;
    [exists []; simpl; rewrite app_nil_r; repeat constructor|].
  simpl.
  match goal with
  | |- context [snd (forEach ?l ?body ?s1)] =>
      change (snd (forEach l body s1)) with (exec (forEach l body) s1);
      change (trace s) with (trace s1)
  end.
  apply (forEach_events (fun events => paired events /\ Forall (editOf entity) events)).
  - repeat constructor.
  - intros a b. apply avatar_events_app.
  - intros avatar s2 _. apply collideWithAvatar_events.
Qed.

(** X5: the avatar resolver changes no entity but the one it probes and
    never notifies observers: whatever the avatars report, every event it
    adds is an update of that entity or an edit message, and each update is
    followed at once by the edit message with the same properties. *)
Theorem avatar_resolver_edits_only_the_probe (s : System) (entity : EntityItem) :
  exists events,
    trace (exec (updateCollisionWithAvatars entity) s) = trace s ++ events
    /\ paired events
    /\ Forall (editOf entity) events.
Proof. exact (updateCollisionWithAvatars_events s entity). Qed.

Lemma collideWithEntity_events (entityA : EntityItem) (c : CollisionInfo) (s : System) :
  exists events,
    trace (exec (collideWithEntity entityA c) s) = trace s ++ events
    /\ paired events
    /\ (forall event e, In event events -> updateTarget event = Some e ->
          e = entityA \/ _extraData c = Some e).
Proof.
  unfold collideWithEntity. destruct (_extraData c) as [entityB|].
  - run. destruct (isKnownID (_entityTree s) entityB); simpl;
      [|exists []; simpl; rewrite app_nil_r; split; [reflexivity|];
        split; [constructor | intros ? ? []]].
    destruct (doCollisions (_entityTree s) entityA entityB (_penetration c));
      [|exists []; simpl; rewrite app_nil_r; split; [reflexivity|];
        split; [constructor | intros ? ? []]].
    destruct (readClock (clock s)) as [now clock']. simpl.
    destruct (massRatios _ _ _ _) as [massRatioA massRatioB].
    unfold emitGlobalEntityCollisionWithEntity.
    destruct (getCollisionsWillMove (_entityTree s) entityA),
      (getCollisionsWillMove (_entityTree s) entityB); run;
      (eexists; split; [rewrite <- ?app_assoc; simpl; reflexivity|];
       split; [repeat constructor|];
       intros event e Hin Htarget; simpl in Hin;
       repeat (destruct Hin as [Hin|Hin]; [subst event; simpl in Htarget;
               try discriminate; injection Htarget as <-; auto|]);
       destruct Hin).
  - run. eexists. split; [reflexivity|]. split; [repeat constructor|].
    intros event e [Hin|[]] Htarget. subst event. discriminate.
Qed.

Lemma In_firstn {A} (n : nat) (l : list A) (a : A) : In a (firstn n l) -> In a l.
Proof.
  revert l. induction n as [|n IH]; intros [|b l]; simpl; try tauto.
  intros [H|H]; [left; exact H | right; apply IH, H].
Qed.

Lemma updateCollisionWithEntities_events (s : System) (entityA : EntityItem) :
  let t := _entityTree s in
  exists events,
    trace (exec (updateCollisionWithEntities entityA) s) = trace s ++ events
    /\ paired events
    /\ (forall event e, In event events -> updateTarget event = Some e ->
          e = entityA
          \/ In (Some e)
               (map (@_extraData F EntityItem)
                  (shapeOverlaps t (getCollisionShapeInMeters t entityA)))).
Proof.
  intros t.
  assert (Hnone : exists events : list Event,
            trace s = trace s ++ events /\ paired events
            /\ (forall event e, In event events -> updateTarget event = Some e ->
                  e = entityA
                  \/ In (Some e)
                       (map (@_extraData F EntityItem)
                          (shapeOverlaps t (getCollisionShapeInMeters t entityA))))).
  { exists []. rewrite app_nil_r. split; [reflexivity|]. split; [constructor|intros ? ? []]. }
  unfold updateCollisionWithEntities. run. fold t.
  destruct (getIgnoreForCollisions t entityA); [exact Hnone|].
  destruct (isKnownID t entityA); [|exact Hnone]. simpl.
  pose proof (entityContacts_items t entityA) as Hitems.
  match goal with |- context [if ?b then _ else _] => destruct b end; [|exact Hnone].
  match goal with
  | |- context [snd (forEach ?l ?body ?s1)] =>
      change (snd (forEach l body s1)) with (exec (forEach l body) s1)
  end.
  apply (forEach_events
           (fun events => paired events
              /\ (forall event e, In event events -> updateTarget event = Some e ->
                    e = entityA
                    \/ In (Some e)
                         (map (@_extraData F EntityItem)
                            (shapeOverlaps t (getCollisionShapeInMeters t entityA)))))).
  - split; [constructor | intros ? ? []].
  - intros a b [Pa Ta] [Pb Tb]. split; [apply paired_app; assumption|].
    intros event e Hin. apply in_app_or in Hin. destruct Hin; eauto.
  - intros c s1 Hc.
    destruct (collideWithEntity_events entityA c s1) as (events & Htrace & Hpaired & Htargets).
    exists events. split; [exact Htrace|]. split; [exact Hpaired|].
    intros event e Hin Htarget.
    destruct (Htargets event e Hin Htarget) as [HA | HB]; [left; exact HA | right].
    rewrite <- HB. apply in_map. apply In_firstn with (n := MAX_COLLISIONS_PER_ENTITY).
    rewrite <- Hitems. exact Hc.
Qed.

(** X6: the entity-pair resolver updates no entity but the probing one and
    its counterparts: every update it applies to the tree names either
    [entityA] or the entity of one of the overlaps the tree reported for A's
    shape, and each update is followed at once by the edit message with the
    same properties. *)
Theorem pair_resolver_updates_only_the_pair (s : System) (entityA : EntityItem) :
  let t := _entityTree s in
  exists events,
    trace (exec (updateCollisionWithEntities entityA) s) = trace s ++ events
    /\ paired events
    /\ (forall event e, In event events -> updateTarget event = Some e ->
          e = entityA
          \/ In (Some e)
               (map (@_extraData F EntityItem)
                  (shapeOverlaps t (getCollisionShapeInMeters t entityA)))).
Proof. exact (updateCollisionWithEntities_events s entityA). Qed.

(** X7: through a whole tick every update applied to the tree is followed
    at once by an edit message with the same properties: the events a tick
    adds are such pairs, notifications and log lines, and nothing recorded
    before the tick is touched. *)
Theorem tick_pairs_every_update_with_its_message (s : System) :
  exists events,
    trace (exec updateCollisions s) = trace s ++ events /\ paired events.
Proof.
  unfold updateCollisions, exec.
  destruct (tryLockForWrite (_entityTree s)) as [locked|];
    [|exists []; simpl; rewrite app_nil_r; split; [reflexivity | constructor]].
  run.
  match goal with
  | |- context [forEach ?l ?body ?s1] =>
      destruct (forEach_events (@paired F EntityItem EntityItemID Other) body l
                  (@paired_nil _ _ _ _) paired_app) with (s := s1)
        as (events & Htrace & Hpaired);
      [|exists events; split; [|exact Hpaired];
        unfold exec in Htrace; destruct (forEach l body s1) as [u s2]; exact Htrace]
  end.
  intros entity s1 _. unfold checkEntity.
  destruct (updateCollisionWithEntities_events s1 entity) as (e1 & H1 & P1 & _).
  unfold exec, bind in *. destruct (updateCollisionWithEntities entity s1) as [u s2].
  destruct (updateCollisionWithAvatars_events s2 entity) as (e2 & H2 & P2 & _).
  unfold exec in H2. simpl in *.
  exists (e1 ++ e2). split; [rewrite H2, H1, app_assoc; reflexivity|].
  apply paired_app; assumption.
Qed.

(** X8: avatars that fail the broad test (squared distance of the centers
    above the squared sum of the radii) are never asked for contacts: when
    every avatar of the registry fails it, the scan of a movable entity only
    clears the contact buffer. *)
Theorem avatars_out_of_range_are_not_queried
    (s : System) (entity : EntityItem) (avatars : list Avatar) :
  let t := _entityTree s in
  let center := getPosition t entity *^ scaleF in
  let radius := getRadius t entity * scaleF in
  avatarHashMap s = Some avatars ->
  getIgnoreForCollisions t entity = false ->
  getCollisionsWillMove t entity = true ->
  (forall avatar, In avatar avatars ->
     let totalRadius := getBoundingRadius avatar + radius in
     let relativePosition := center -^ getAvatarPosition avatar in
     (glm.dot relativePosition relativePosition >? totalRadius * totalRadius) = true) ->
  exec (updateCollisionWithAvatars entity) s =
    mkSystem t (_movingEntities s) (clear (_collisions s)) (avatarHashMap s)
      (clock s) (trace s).
Proof.
  intros t center radius Hregistry Hheeds Hmoves Hfar.
  unfold updateCollisionWithAvatars, exec. rewrite Hregistry. run. fold t.
  rewrite Hheeds, Hmoves. simpl. fold center radius.
  rewrite forEach_noop; [rewrite Hregistry; reflexivity|].
  intros avatar Hin. unfold collideWithAvatar.
  rewrite (Hfar avatar Hin). reflexivity.
Qed.

End Properties.

(** ** Identities of binary32 *)

Section Binary32Properties.
Variables EntityTree EntityItem QUuid EntityItemID Shape Other Avatar Clock : Type.
Import Binary32.
Context {world : World float EntityTree EntityItem QUuid EntityItemID Shape Other Avatar Clock}.

Local Abbreviation System :=
  (EntityCollisionSystem float EntityTree EntityItem EntityItemID Other Avatar Clock).
Local Abbreviation CollisionInfo := (CollisionInfo float EntityItem).
Local Abbreviation Event := (Event float EntityItem EntityItemID Other).

Local Open Scope Z_scope.

(* x / x is 1.0f for every finite x *)
Lemma SFdiv_self (s : bool) (m : positive) (e : Z) :
  SFdiv prec emax (S754_finite s m e) (S754_finite s m e) = ofZ 1.
Proof.
  unfold SFdiv, SFdiv_core_binary. rewrite !Z.sub_diag.
  change (Z.min (fexp prec emax 0) 0) with (-24).
  change (0 - -24) with 24. cbv iota beta.
  assert (Hdiv : Z.div_eucl (Z.shiftl (Z.pos m) 24) (Z.pos m) = (16777216, 0)).
  { assert (Hq : Z.shiftl (Z.pos m) 24 / Z.pos m = 16777216).
    { rewrite Z.shiftl_mul_pow2 by lia. change (2 ^ 24) with 16777216.
      rewrite Z.mul_comm. apply Z.div_mul. lia. }
    assert (Hr : Z.shiftl (Z.pos m) 24 mod Z.pos m = 0).
    { rewrite Z.shiftl_mul_pow2 by lia. rewrite Z.mul_comm. apply Z.mod_mul. lia. }
    unfold Z.div, Z.modulo in Hq, Hr.
    destruct (Z.div_eucl (Z.shiftl (Z.pos m) 24) (Z.pos m)) as [q r].
    simpl in Hq, Hr. subst. reflexivity. }
  rewrite Hdiv, xorb_nilpotent.
  assert (Hloc : new_location (Z.pos m) 0 = loc_Exact).
  { unfold new_location. destruct (Z.even (Z.pos m)); reflexivity. }
  rewrite Hloc. vm_compute. reflexivity.
Qed.

Lemma digits_double (m : positive) :
  Z.pos (digits2_pos (m~0)) = Z.pos (digits2_pos m) + 1.
Proof. simpl. lia. Qed.

(* a canonical mantissa has 24 digits, or fewer at the least exponent *)
Lemma canonical_cases (m : positive) (e : Z) :
  canonical_mantissa prec emax m e = true ->
  Z.pos (digits2_pos m) = 24 \/ (e = -149 /\ Z.pos (digits2_pos m) < 24).
Proof.
  unfold canonical_mantissa, fexp, emin, prec, emax. intros Hcanon.
  apply Z.eqb_eq in Hcanon. lia.
Qed.

(* rounding 2^23 * m at exponent e - 22 and 2 * m at exponent e: the same
   shifts, up to the 22 zero bits shifted out first *)
Lemma round_doubled (s : bool) (m : positive) (e : Z) :
  canonical_mantissa prec emax m e = true ->
  binary_round_aux prec emax s (Z.pos (8388608 * m)) (-22 + e) loc_Exact
  = binary_round_aux prec emax s (Z.pos (m~0)) e loc_Exact.
Proof.
  intros Hcanon.
  change (8388608 * m)%positive
    with (m~0~0~0~0~0~0~0~0~0~0~0~0~0~0~0~0~0~0~0~0~0~0~0)%positive.
  unfold binary_round_aux.
  assert (Hshift :
    shr_fexp prec emax (Z.pos (m~0~0~0~0~0~0~0~0~0~0~0~0~0~0~0~0~0~0~0~0~0~0~0))
      (-22 + e) loc_Exact
    = shr_fexp prec emax (Z.pos (m~0)) e loc_Exact).
  { unfold shr_fexp, Zdigits2.
    pose proof (canonical_cases m e Hcanon) as Hcases.
    unfold canonical_mantissa in Hcanon. apply Z.eqb_eq in Hcanon.
    rewrite !digits_double.
    set (d := Z.pos (digits2_pos m)) in *.
    unfold fexp, emin, prec, emax in *.
    destruct Hcases as [Hnormal | [Hmin Hsub]].
    - replace (Z.max (d + 1 + 1 + 1 + 1 + 1 + 1 + 1 + 1 + 1 + 1 + 1 + 1 + 1 + 1 + 1 + 1
                      + 1 + 1 + 1 + 1 + 1 + 1 + 1 + (-22 + e) - 24) (3 - 128 - 24)
               - (-22 + e)) with 23 by lia.
      replace (Z.max (d + 1 + e - 24) (3 - 128 - 24) - e) with 1 by lia.
      unfold shr. cbn [iter_pos shr_1 shr_record_of_loc orb]. f_equal. lia.
    - replace (Z.max (d + 1 + 1 + 1 + 1 + 1 + 1 + 1 + 1 + 1 + 1 + 1 + 1 + 1 + 1 + 1 + 1
                      + 1 + 1 + 1 + 1 + 1 + 1 + 1 + (-22 + e) - 24) (3 - 128 - 24)
               - (-22 + e)) with 22 by lia.
      replace (Z.max (d + 1 + e - 24) (3 - 128 - 24) - e) with 0 by lia.
      unfold shr. cbn [iter_pos shr_1 shr_record_of_loc orb]. f_equal. lia. }
  rewrite Hshift. reflexivity.
Qed.

(* 2.0f * x and x + x are the same float *)
Lemma SFmul_two (a : float) :
  valid a = true -> SFmul prec emax (ofZ 2) a = SFadd prec emax a a.
Proof.
  unfold valid. destruct a as [s|s| |s m e]; intros Hvalid.
  - destruct s; reflexivity.
  - destruct s; reflexivity.
  - reflexivity.
  - simpl in Hvalid. apply andb_prop in Hvalid. destruct Hvalid as [Hcanon Hbound].
    change (ofZ 2) with (S754_finite false 8388608 (-22)).
    unfold SFmul, SFadd. rewrite Z.min_id.
    unfold shl_align at 1 2. rewrite Z.sub_diag. cbn [fst xorb].
    rewrite round_doubled by exact Hcanon.
    assert (Hsum : cond_Zopp s (Z.pos m) + cond_Zopp s (Z.pos m)
                   = cond_Zopp s (Z.pos (m~0))).
    { destruct s; simpl; rewrite Pos.add_diag; reflexivity. }
    rewrite Hsum.
    assert (Hnorm : binary_normalize prec emax (cond_Zopp s (Z.pos (m~0))) e false
                    = binary_round prec emax s (m~0) e) by (destruct s; reflexivity).
    rewrite Hnorm. unfold binary_round.
    assert (Halign : shl_align (m~0) e (fexp prec emax (Z.pos (digits2_pos (m~0)) + e))
                     = ((m~0)%positive, e)).
    { unfold shl_align. rewrite digits_double.
      destruct (fexp prec emax (Z.pos (digits2_pos m) + 1 + e) - e) eqn:Hdiff;
        try reflexivity.
      exfalso. pose proof (canonical_cases m e Hcanon) as Hcases.
      unfold canonical_mantissa in Hcanon. apply Z.eqb_eq in Hcanon.
      unfold fexp, emin, prec, emax in *. lia. }
    rewrite Halign. reflexivity.
Qed.

(** *** Operations that are exact *)

Lemma round_canonical (s : bool) (m : positive) (e : Z) :
  canonical_mantissa prec emax m e = true ->
  (e <=? emax - prec) = true ->
  binary_round_aux prec emax s (Z.pos m) e loc_Exact = S754_finite s m e.
Proof.
  intros Hcanon Hbound. unfold binary_round_aux.
  assert (Hshift : forall l, shr_fexp prec emax (Z.pos m) e l
                     = (shr_record_of_loc (Z.pos m) l, e)).
  { intros l. unfold shr_fexp, Zdigits2. unfold canonical_mantissa in Hcanon.
    apply Z.eqb_eq in Hcanon. rewrite Hcanon, Z.sub_diag. reflexivity. }
  rewrite Hshift. cbn [shr_record_of_loc shr_m loc_of_shr_record round_nearest_even].
  rewrite Hshift. cbn [shr_record_of_loc shr_m]. rewrite Hbound. reflexivity.
Qed.

Lemma round_unit (s : bool) (m : positive) (e : Z) :
  canonical_mantissa prec emax m e = true ->
  (e <=? emax - prec) = true ->
  binary_round_aux prec emax s (Z.pos (8388608 * m)) (-23 + e) loc_Exact = S754_finite s m e.
Proof.
  intros Hcanon Hbound. rewrite <- (round_canonical s m e Hcanon Hbound).
  change (8388608 * m)%positive
    with (m~0~0~0~0~0~0~0~0~0~0~0~0~0~0~0~0~0~0~0~0~0~0~0)%positive.
  unfold binary_round_aux.
  assert (Hshift :
    shr_fexp prec emax (Z.pos (m~0~0~0~0~0~0~0~0~0~0~0~0~0~0~0~0~0~0~0~0~0~0~0))
      (-23 + e) loc_Exact
    = shr_fexp prec emax (Z.pos m) e loc_Exact).
  { unfold shr_fexp, Zdigits2.
    unfold canonical_mantissa in Hcanon. apply Z.eqb_eq in Hcanon.
    rewrite !digits_double.
    set (d := Z.pos (digits2_pos m)) in *.
    replace (d + 1 + 1 + 1 + 1 + 1 + 1 + 1 + 1 + 1 + 1 + 1 + 1 + 1 + 1 + 1 + 1
             + 1 + 1 + 1 + 1 + 1 + 1 + 1 + (-23 + e)) with (d + e) by lia.
    rewrite Hcanon.
    replace (e - (-23 + e)) with 23 by lia. rewrite Z.sub_diag.
    unfold shr. cbn [iter_pos shr_1 shr_record_of_loc orb]. f_equal. lia. }
  rewrite Hshift. reflexivity.
Qed.


(* the classes of the results *)
Lemma finite_finiteOrZero (a : float) : finite a = true -> finiteOrZero a = true.
Proof. destruct a; intros H; try discriminate; reflexivity. Qed.

Lemma isZero_finiteOrZero (a : float) : isZero a = true -> finiteOrZero a = true.
Proof. destruct a; intros H; try discriminate; reflexivity. Qed.

Lemma mul_zero_r (a z : float) :
  finiteOrZero a = true -> isZero z = true -> isZero (SFmul prec emax a z) = true.
Proof. destruct a, z; intros Ha Hz; try discriminate; reflexivity. Qed.

Lemma mul_zero_l (z a : float) :
  isZero z = true -> finiteOrZero a = true -> isZero (SFmul prec emax z a) = true.
Proof. destruct a, z; intros Hz Ha; try discriminate; reflexivity. Qed.

Lemma add_zero_zero (a b : float) :
  isZero a = true -> isZero b = true -> isZero (SFadd prec emax a b) = true.
Proof.
  destruct a as [sa| | |], b as [sb| | |]; intros Ha Hb; try discriminate.
  destruct sa, sb; reflexivity.
Qed.

Lemma add_finiteOrZero_zero (a z : float) :
  finiteOrZero a = true -> isZero z = true -> finiteOrZero (SFadd prec emax a z) = true.
Proof.
  destruct a as [sa| | |], z as [sz| | |]; intros Ha Hz; try discriminate;
    [destruct sa, sz|]; reflexivity.
Qed.

Lemma sub_zero_finiteOrZero (z a : float) :
  isZero z = true -> finiteOrZero a = true -> finiteOrZero (SFsub prec emax z a) = true.
Proof.
  destruct a as [sa| | |], z as [sz| | |]; intros Hz Ha; try discriminate;
    [destruct sa, sz|]; reflexivity.
Qed.

Lemma sub_finiteOrZero_zero (a z : float) :
  finiteOrZero a = true -> isZero z = true -> finiteOrZero (SFsub prec emax a z) = true.
Proof.
  destruct a as [sa| | |], z as [sz| | |]; intros Ha Hz; try discriminate;
    [destruct sa, sz|]; reflexivity.
Qed.

Lemma add_zero_l (z a : float) :
  isZero z = true -> finite a = true -> SFadd prec emax z a = a.
Proof. destruct a, z; intros Hz Ha; try discriminate; reflexivity. Qed.

Lemma add_zero_r (a z : float) :
  finite a = true -> isZero z = true -> SFadd prec emax a z = a.
Proof. destruct a, z; intros Ha Hz; try discriminate; reflexivity. Qed.

Lemma finite_opp (a : float) : finite (SFopp a) = finite a.
Proof. destruct a; reflexivity. Qed.

Lemma isUnit_inv (u : float) :
  isUnit u = true -> exists su, u = S754_finite su 8388608 (-23).
Proof.
  destruct u as [| | |su mu eu]; try discriminate. intros Hu.
  unfold isUnit in Hu. apply andb_prop in Hu. destruct Hu as [Hmu Heu].
  apply Pos.eqb_eq in Hmu. apply Z.eqb_eq in Heu. subst mu eu.
  exists su. reflexivity.
Qed.

(* x * 1.0f and x * -1.0f *)
Lemma mul_unit (s su : bool) (m : positive) (e : Z) :
  valid (S754_finite s m e) = true ->
  SFmul prec emax (S754_finite s m e) (S754_finite su 8388608 (-23))
  = S754_finite (xorb s su) m e.
Proof.
  intros Hvalid.
  unfold valid in Hvalid. simpl in Hvalid. apply andb_prop in Hvalid.
  destruct Hvalid as [Hcanon Hbound].
  unfold SFmul. rewrite Pos.mul_comm, Z.add_comm. apply round_unit; assumption.
Qed.

Lemma SFmul_comm (a b : float) : SFmul prec emax a b = SFmul prec emax b a.
Proof.
  destruct a as [sa|sa| |sa ma ea], b as [sb|sb| |sb mb eb]; unfold SFmul;
    try reflexivity; try (f_equal; apply xorb_comm).
  rewrite Pos.mul_comm, Z.add_comm, xorb_comm. reflexivity.
Qed.

(* x + x: the exponent goes up by one, or the mantissa doubles at the least
   exponent *)
Lemma add_self (s0 s : bool) (m : positive) (e : Z) :
  valid (S754_finite s m e) = true ->
  finite (SFadd prec emax (S754_finite s0 m e) (S754_finite s0 m e)) = true ->
  (SFadd prec emax (S754_finite s m e) (S754_finite s m e) = S754_finite s m (e + 1)
   /\ canonical_mantissa prec emax m (e + 1) = true /\ (e + 1 <=? emax - prec) = true)
  \/ (SFadd prec emax (S754_finite s m e) (S754_finite s m e) = S754_finite s (m~0) e
      /\ canonical_mantissa prec emax (m~0) e = true).
Proof.
  intros Hvalid. unfold valid in Hvalid. simpl in Hvalid. apply andb_prop in Hvalid.
  destruct Hvalid as [Hcanon Hbound].
  assert (Hsum : forall s, SFadd prec emax (S754_finite s m e) (S754_finite s m e)
                 = binary_round_aux prec emax s (Z.pos (m~0)) e loc_Exact).
  { clear s. intros s. unfold SFadd. rewrite Z.min_id. unfold shl_align at 1 2. rewrite Z.sub_diag.
    cbn [fst].
    assert (Hdouble : cond_Zopp s (Z.pos m) + cond_Zopp s (Z.pos m)
                      = cond_Zopp s (Z.pos (m~0))).
    { destruct s; simpl; rewrite Pos.add_diag; reflexivity. }
    rewrite Hdouble.
    assert (Hnorm : binary_normalize prec emax (cond_Zopp s (Z.pos (m~0))) e false
                    = binary_round prec emax s (m~0) e) by (destruct s; reflexivity).
    rewrite Hnorm. unfold binary_round.
    assert (Halign : shl_align (m~0) e (fexp prec emax (Z.pos (digits2_pos (m~0)) + e))
                     = ((m~0)%positive, e)).
    { unfold shl_align. rewrite digits_double.
      destruct (fexp prec emax (Z.pos (digits2_pos m) + 1 + e) - e) eqn:Hdiff;
        try reflexivity.
      exfalso. pose proof (canonical_cases m e Hcanon) as Hcases.
      unfold canonical_mantissa in Hcanon. apply Z.eqb_eq in Hcanon.
      unfold fexp, emin, prec, emax in *. lia. }
    rewrite Halign. reflexivity. }
  rewrite !Hsum.
  pose proof (canonical_cases m e Hcanon) as [Hnormal | [Hmin Hsub]].
  - assert (Hup : canonical_mantissa prec emax m (e + 1) = true).
    { unfold canonical_mantissa in *. apply Z.eqb_eq in Hcanon. apply Z.eqb_eq.
      unfold fexp, emin, prec, emax in *. lia. }
    assert (Hround : forall s, binary_round_aux prec emax s (Z.pos (m~0)) e loc_Exact
                     = binary_round_aux prec emax s (Z.pos m) (e + 1) loc_Exact).
    { clear s. intros s. unfold binary_round_aux.
      assert (Hshift : shr_fexp prec emax (Z.pos (m~0)) e loc_Exact
                       = shr_fexp prec emax (Z.pos m) (e + 1) loc_Exact).
      { unfold shr_fexp, Zdigits2. rewrite digits_double.
        unfold canonical_mantissa in Hcanon, Hup.
        apply Z.eqb_eq in Hcanon. apply Z.eqb_eq in Hup.
        replace (Z.pos (digits2_pos m) + 1 + e) with (Z.pos (digits2_pos m) + (e + 1)) by lia.
        rewrite Hup. replace (e + 1 - e) with 1 by lia. rewrite Z.sub_diag.
        unfold shr. cbn [iter_pos shr_1 shr_record_of_loc orb]. reflexivity. }
      rewrite Hshift. reflexivity. }
    rewrite !Hround.
    destruct (e + 1 <=? emax - prec) eqn:Hroom.
    + intros _. left. split; [apply round_canonical; assumption|]. split; [exact Hup | reflexivity].
    + intros Hfinite. exfalso. revert Hfinite. unfold binary_round_aux.
      assert (Hshift : forall l, shr_fexp prec emax (Z.pos m) (e + 1) l
                         = (shr_record_of_loc (Z.pos m) l, e + 1)).
      { intros l. unfold shr_fexp, Zdigits2. unfold canonical_mantissa in Hup.
        apply Z.eqb_eq in Hup. rewrite Hup, Z.sub_diag. reflexivity. }
      rewrite Hshift. cbn [shr_record_of_loc shr_m loc_of_shr_record round_nearest_even].
      rewrite Hshift. cbn [shr_record_of_loc shr_m]. rewrite Hroom. discriminate.
  - intros _. right.
    assert (Hup : canonical_mantissa prec emax (m~0) e = true).
    { unfold canonical_mantissa in *. apply Z.eqb_eq in Hcanon. apply Z.eqb_eq.
      rewrite digits_double. unfold fexp, emin, prec, emax in *. lia. }
    split; [apply round_canonical; assumption | exact Hup].
Qed.

(* x + -(x + x) = -x *)
Lemma add_opp_double (a : float) :
  valid a = true -> finite (SFadd prec emax a a) = true ->
  SFadd prec emax a (SFopp (SFadd prec emax a a)) = SFopp a.
Proof.
  intros Hvalid Hfinite.
  destruct a as [sa|sa| |s m e];
    try discriminate Hfinite; try (destruct sa; discriminate Hfinite).
  assert (Hcanon : canonical_mantissa prec emax m e = true
                   /\ (e <=? emax - prec) = true).
  { unfold valid in Hvalid. simpl in Hvalid. apply andb_prop in Hvalid. exact Hvalid. }
  destruct Hcanon as [Hcanon Hbound].
  assert (Hback : forall z, z = cond_Zopp (negb s) (Z.pos m) ->
            binary_normalize prec emax z e false = S754_finite (negb s) m e).
  { intros z ->.
    assert (Hnorm : binary_normalize prec emax (cond_Zopp (negb s) (Z.pos m)) e false
                    = binary_round prec emax (negb s) m e) by (destruct s; reflexivity).
    rewrite Hnorm. unfold binary_round.
    assert (Halign : shl_align m e (fexp prec emax (Z.pos (digits2_pos m) + e)) = (m, e)).
    { unfold shl_align. unfold canonical_mantissa in Hcanon. apply Z.eqb_eq in Hcanon.
      rewrite Hcanon, Z.sub_diag. reflexivity. }
    rewrite Halign. apply round_canonical; assumption. }
  destruct (add_self s s m e Hvalid Hfinite) as [(Hsum & _ & _) | (Hsum & _)];
    rewrite Hsum; cbn [SFopp].
  - unfold SFadd. replace (Z.min e (e + 1)) with e by lia.
    unfold shl_align. rewrite Z.sub_diag. replace (e - (e + 1)) with (-1) by lia.
    cbn [fst Pos.iter]. apply Hback. rewrite Pos2Z.inj_xO. destruct s; cbn [cond_Zopp negb]; lia.
  - unfold SFadd. rewrite Z.min_id.
    unfold shl_align. rewrite Z.sub_diag.
    cbn [fst]. apply Hback. rewrite Pos2Z.inj_xO. destruct s; cbn [cond_Zopp negb]; lia.
Qed.

Lemma valid_double (a : float) :
  valid a = true -> finite (SFadd prec emax a a) = true ->
  valid (SFadd prec emax a a) = true.
Proof.
  intros Hvalid Hfinite.
  destruct a as [sa|sa| |s m e];
    try discriminate Hfinite; try (destruct sa; discriminate Hfinite).
  destruct (add_self s s m e Hvalid Hfinite) as [(Hsum & Hcanon & Hbound) | (Hsum & Hcanon)];
    rewrite Hsum; unfold valid, valid_binary, SpecFloat.bounded.
  - rewrite Hcanon. exact Hbound.
  - rewrite Hcanon. unfold valid in Hvalid. simpl in Hvalid. apply andb_prop in Hvalid.
    apply Hvalid.
Qed.

(* x - x = +0 *)
Lemma sub_self (s : bool) (m : positive) (e : Z) :
  SFsub prec emax (S754_finite s m e) (S754_finite s m e) = S754_zero false.
Proof. unfold SFsub. rewrite Z.sub_diag. reflexivity. Qed.

Lemma finite_of_double (a : float) :
  finite (SFadd prec emax a a) = true -> finite a = true.
Proof. destruct a as [s|s| |]; try destruct s; intros H; try discriminate H; reflexivity. Qed.

(* the component along the axis: v against a body at rest, u = 1.0f or -1.0f *)
Lemma axis_scalar (v u : float) :
  valid v = true -> finite (SFadd prec emax v v) = true -> isUnit u = true ->
  let o := S754_zero false in
  let r := SFsub prec emax o v in
  let d := SFmul prec emax r u in
  let g := SFmul prec emax d (ofZ 2) in
  finite d = true /\ finite g = true
  /\ SFadd prec emax v (SFmul prec emax g u) = SFopp v
  /\ SFsub prec emax r (SFmul prec emax d u) = S754_zero false
  /\ SFmul prec emax (SFsub prec emax o (SFopp v)) u = SFopp d.
Proof.
  intros Hvalid Hfinite Hu o r d g.
  destruct v as [sv|sv| |s m e];
    try discriminate Hfinite; try (destruct sv; discriminate Hfinite).
  destruct (isUnit_inv u Hu) as [su ->].
  assert (Hr : r = S754_finite (negb s) m e) by reflexivity.
  assert (Hvalid' : forall s', valid (S754_finite s' m e) = true) by (intros s'; exact Hvalid).
  assert (Hd : d = S754_finite (xorb (negb s) su) m e).
  { subst d. rewrite Hr. apply mul_unit. apply Hvalid'. }
  assert (Hg : g = SFadd prec emax d d).
  { subst g. rewrite SFmul_comm. apply SFmul_two. rewrite Hd. apply Hvalid'. }
  assert (Hcases : exists m' e',
            (forall s', SFadd prec emax (S754_finite s' m e) (S754_finite s' m e)
                        = S754_finite s' m' e')
            /\ forall s', valid (S754_finite s' m' e') = true).
  { destruct (add_self s s m e Hvalid Hfinite) as [(_ & Hcanon & Hbound) | (_ & Hcanon)].
    - exists m, (e + 1). split.
      + intros s'. destruct (add_self s s' m e (Hvalid' s') Hfinite)
          as [(Hsum & _) | (Hsum & Hcanon')]; [exact Hsum|].
        exfalso. pose proof (canonical_cases m e) as Hc.
        unfold valid, valid_binary, SpecFloat.bounded in Hvalid.
        apply andb_prop in Hvalid. destruct Hvalid as [Hcm _].
        unfold canonical_mantissa in *. rewrite digits_double in Hcanon'.
        apply Z.eqb_eq in Hcanon, Hcanon', Hcm.
        unfold fexp, emin, prec, emax in *. lia.
      + intros s'. unfold valid, valid_binary, SpecFloat.bounded.
        rewrite Hcanon. exact Hbound.
    - exists (m~0)%positive, e. split.
      + intros s'. destruct (add_self s s' m e (Hvalid' s') Hfinite)
          as [(Hsum & Hcanon' & _) | (Hsum & _)]; [|exact Hsum].
        exfalso.
        unfold valid, valid_binary, SpecFloat.bounded in Hvalid.
        apply andb_prop in Hvalid. destruct Hvalid as [Hcm _].
        unfold canonical_mantissa in *. rewrite digits_double in Hcanon.
        apply Z.eqb_eq in Hcanon, Hcanon', Hcm.
        unfold fexp, emin, prec, emax in *. lia.
      + intros s'. unfold valid, valid_binary, SpecFloat.bounded.
        rewrite Hcanon. unfold valid, valid_binary, SpecFloat.bounded in Hvalid.
        apply andb_prop in Hvalid. apply Hvalid. }
  destruct Hcases as (m' & e' & Hsum & Hvalid2).
  assert (Hg' : g = S754_finite (xorb (negb s) su) m' e').
  { rewrite Hg, Hd. apply Hsum. }
  split; [rewrite Hd; reflexivity|]. split; [rewrite Hg'; reflexivity|]. split; [|split].
  - rewrite Hg', mul_unit by apply Hvalid2.
    replace (xorb (xorb (negb s) su) su) with (negb s) by (destruct s, su; reflexivity).
    change (S754_finite (negb s) m' e') with (SFopp (S754_finite s m' e')).
    rewrite <- (Hsum s). apply add_opp_double; assumption.
  - rewrite Hd, mul_unit by apply Hvalid'.
    replace (xorb (xorb (negb s) su) su) with (negb s) by (destruct s, su; reflexivity).
    rewrite Hr. apply sub_self.
  - rewrite Hd. cbn [SFopp]. unfold o.
    change (SFsub prec emax (S754_zero false) (S754_finite (negb s) m e))
      with (S754_finite (negb (negb s)) m e).
    rewrite mul_unit by apply Hvalid'. f_equal. destruct s, su; reflexivity.
Qed.

(* the ratios of two equal masses, when the total mass is a finite float *)
Lemma massRatios_equal_masses_binary32 (m : float) :
  valid m = true ->
  finite (fadd m m) = true ->
  massRatios true true m m = (fofZ 1, fofZ 1).
Proof.
  intros Hvalid Hfinite. unfold massRatios. cbn [andb negb].
  change (fadd m m) with (SFadd prec emax m m) in *.
  change (fmul (fofZ 2) m) with (SFmul prec emax (ofZ 2) m).
  change (@fdiv float scalar32) with (SFdiv prec emax).
  rewrite SFmul_two by exact Hvalid.
  destruct (SFadd prec emax m m) as [| | |s mm e]; try discriminate.
  rewrite SFdiv_self. reflexivity.
Qed.

Local Open Scope float_scope.
Local Open Scope vec_scope.

(** C5: for a resolved contact (B known, closing, not fully enclosed) of two
    movable entities of equal mass, both velocity ratios are exactly 1.0f, and
    the resolution updates A and then B: 0.5f times the penetration vector (in
    tree units) is subtracted from A's position and added to B's position, B
    being read from the tree after the update of A.  In binary32, for a mass
    in canonical form whose double is a finite float (not zero, no
    overflow). *)
Theorem equal_masses_split_penetration_evenly
    (s : System) (entityA entityB : EntityItem) (c : CollisionInfo) :
  let t := _entityTree s in
  let penetrationInTreeUnits := _penetration c /^ scaleF in
  let relativeVelocity := getVelocity t entityA -^ getVelocity t entityB in
  _extraData c = Some entityB ->
  isKnownID t entityB = true ->
  (glm.length penetrationInTreeUnits >? getLargestDimension t entityA) = false ->
  (glm.dot relativeVelocity penetrationInTreeUnits >? fofZ 0) = true ->
  getCollisionsWillMove t entityA = true ->
  getCollisionsWillMove t entityB = true ->
  computeMass t entityA = computeMass t entityB ->
  valid (computeMass t entityA) = true ->
  finite (computeMass t entityA + computeMass t entityB) = true ->
  let half : float := S754_finite false 8388608 (-24) in
  let one : float := S754_finite false 8388608 (-23) in
  let now := fst (readClock (clock s)) in
  let axis := glm.normalize (_penetration c) in
  let axialVelocity := glm.dot relativeVelocity axis ^* axis in
  let propertiesA :=
    mkProperties (otherProperties (getProperties t entityA))
      ((getPosition t entityA -^ half ^* penetrationInTreeUnits) *^ scaleF)
      ((getVelocity t entityA -^ axialVelocity *^ one) *^ scaleF) now in
  let t1 := updateEntity t entityA propertiesA in
  let propertiesB :=
    mkProperties (otherProperties (getProperties t1 entityB))
      ((getPosition t1 entityB +^ half ^* penetrationInTreeUnits) *^ scaleF)
      ((getVelocity t1 entityB +^ axialVelocity *^ one) *^ scaleF) now in
  let t2 := updateEntity t1 entityB propertiesB in
  let events : list Event :=
    [UpdateEntity entityA propertiesA;
     QueueEditEntityMessage (EntityItemID_of (getID t entityA)) propertiesA;
     UpdateEntity entityB propertiesB;
     QueueEditEntityMessage (EntityItemID_of (getID t1 entityB)) propertiesB;
     EntityCollisionWithEntity (getEntityItemID t2 entityA) (getEntityItemID t2 entityB)
       (mkCollision (_penetration c)
          ((half * scaleF) ^* (getPosition t2 entityA +^ getPosition t2 entityB)))] in
  massRatios true true (computeMass t entityA) (computeMass t entityB) = (one, one)
  /\ exec (collideWithEntity entityA c) s =
       mkSystem t2 (_movingEntities s) (_collisions s) (avatarHashMap s)
         (snd (readClock (clock s))) (trace s ++ events).
Proof.
  intros t penTU relV HB HknownB Hencl Hclosing HA HmoveB Hmass Hvalid Hfinite
    half one now axis axial propertiesA t1 propertiesB t2 events.
  assert (Hratios : massRatios true true (computeMass t entityA) (computeMass t entityB)
                    = (one, one)).
  { rewrite <- Hmass in *. apply massRatios_equal_masses_binary32; assumption. }
  split; [exact Hratios|].
  rewrite (collideWithEntity_both_movable s entityA c HB HknownB Hencl Hclosing HA HmoveB).
  cbv zeta. fold t. rewrite Hratios. reflexivity.
Qed.

Create HintDb floats.
#[local] Hint Resolve mul_zero_r mul_zero_l add_zero_zero add_finiteOrZero_zero
  sub_zero_finiteOrZero sub_finiteOrZero_zero finite_finiteOrZero isZero_finiteOrZero : floats.

Ltac specfloat :=
  change (@fadd float scalar32) with (SFadd prec emax) in *;
  change (@fsub float scalar32) with (SFsub prec emax) in *;
  change (@fmul float scalar32) with (SFmul prec emax) in *.

Lemma alongAxis_unit (i : Axis) (dir : vec3 float) :
  alongAxis i dir = true -> isUnit (component i dir) = true.
Proof.
  destruct i; cbn [alongAxis component]; intros H;
    repeat (apply andb_prop in H; destruct H as [H ?]); assumption.
Qed.

(* the dot product with a unit vector along an axis picks the component *)
Lemma dot_along_axis (p dir : vec3 float) (i : Axis) :
  alongAxis i dir = true ->
  (forall j, finiteOrZero (component j p) = true) ->
  finite (component i p * component i dir) = true ->
  glm.dot p dir = component i p * component i dir.
Proof.
  intros Hdir Hp Hfinite.
  pose proof (Hp AxisX) as Hx. pose proof (Hp AxisY) as Hy. pose proof (Hp AxisZ) as Hz.
  destruct p as [px py pz], dir as [dx dy dz]. unfold glm.dot.
  destruct i; cbn [alongAxis component glm.x glm.y glm.z] in *;
    repeat (apply andb_prop in Hdir; destruct Hdir as [Hdir ?]); specfloat.
  - rewrite !add_zero_r; auto with floats.
    rewrite add_zero_r; auto with floats.
  - rewrite add_zero_r; auto with floats.
    + rewrite add_zero_l; auto with floats.
    + rewrite add_zero_l; auto with floats.
  - rewrite add_zero_l; auto with floats.
Qed.

Lemma component_add (i : Axis) (a b : vec3 float) :
  component i (a +^ b) = component i a + component i b.
Proof. destruct i; reflexivity. Qed.

Lemma component_sub (i : Axis) (a b : vec3 float) :
  component i (a -^ b) = component i a - component i b.
Proof. destruct i; reflexivity. Qed.

Lemma component_lscale (i : Axis) (k : float) (a : vec3 float) :
  component i (k ^* a) = k * component i a.
Proof. destruct i; reflexivity. Qed.

Lemma alongAxis_zero (i j : Axis) (dir : vec3 float) :
  alongAxis i dir = true -> i <> j -> isZero (component j dir) = true.
Proof.
  destruct i, j; cbn [alongAxis component]; intros H Hne; try contradiction;
    repeat (apply andb_prop in H; destruct H as [H ?]); assumption.
Qed.

Lemma Axis_eq_dec (i j : Axis) : {i = j} + {i <> j}.
Proof. decide equality. Qed.

(* the response to a body at rest, fully elastic and undamped, when the
   direction is a unit vector along an axis *)
Lemma reflect_along_axis (v dir : vec3 float) (i : Axis) :
  alongAxis i dir = true ->
  (forall j, finiteOrZero (component j v) = true) ->
  valid (component i v) = true ->
  finite (component i v + component i v) = true ->
  let rest : vec3 float := mkvec3 (fofZ 0) (fofZ 0) (fofZ 0) in
  let rel := rest -^ v in
  let v' := v +^ (glm.dot rel dir * (fofZ 1 + fofZ 1)) ^* dir
              +^ glm.clamp (fofZ 0) (fofZ 0) (fofZ 1) ^* (rel -^ glm.dot rel dir ^* dir) in
  component i v' = SFopp (component i v)
  /\ glm.dot (rest -^ v') dir = SFopp (glm.dot rel dir).
Proof.
  intros Hdir Hv Hvalid Hdouble rest rel v'.
  pose proof (alongAxis_unit i dir Hdir) as Hu.
  pose proof (finite_of_double _ Hdouble) as Hfin.
  destruct (axis_scalar (component i v) (component i dir) Hvalid Hdouble Hu)
    as (Hd & Hg & Hback & Hself & Hafter).
  assert (Hrest : forall j, component j rest = S754_zero false) by (intros j; destruct j; reflexivity).
  assert (Hrel : forall j, finiteOrZero (component j rel) = true).
  { intros j. unfold rel. rewrite component_sub, Hrest. specfloat. auto with floats. }
  assert (Hdot : glm.dot rel dir = component i rel * component i dir).
  { apply dot_along_axis; [exact Hdir | exact Hrel |].
    unfold rel. rewrite component_sub, Hrest. exact Hd. }
  assert (Hcomp : forall j, component j v'
            = component j v + (glm.dot rel dir * fofZ 2) * component j dir
              + (S754_zero false : float)
                * (component j rel - glm.dot rel dir * component j dir)).
  { intros j. unfold v'. rewrite !component_add, !component_lscale, component_sub,
      component_lscale. reflexivity. }
  assert (Hrel_i : component i rel = SFsub prec emax (S754_zero false) (component i v)).
  { unfold rel. rewrite component_sub, Hrest. reflexivity. }
  assert (Hi : component i v' = SFopp (component i v)).
  { rewrite Hcomp, Hdot, Hrel_i. specfloat. change (fofZ 2) with (ofZ 2).
    rewrite Hback, Hself. apply add_zero_r; [|reflexivity].
    rewrite finite_opp. exact Hfin. }
  split; [exact Hi|].
  assert (Hv' : forall j, finiteOrZero (component j (rest -^ v')) = true).
  { intros j. rewrite component_sub, Hrest. specfloat.
    apply sub_zero_finiteOrZero; [reflexivity|].
    destruct (Axis_eq_dec i j) as [<- | Hne].
    - rewrite Hi. apply finite_finiteOrZero. rewrite finite_opp. exact Hfin.
    - pose proof (@alongAxis_zero i j dir Hdir Hne) as Hzero.
      rewrite Hcomp, Hdot, Hrel_i. specfloat. change (fofZ 2) with (ofZ 2).
      pose proof (Hrel j) as Hrj. pose proof (Hv j) as Hvj.
      auto 10 with floats. }
  rewrite (dot_along_axis (rest -^ v') dir i Hdir Hv').
  - rewrite Hdot, component_sub, Hrest, Hi, Hrel_i. exact Hafter.
  - rewrite component_sub, Hrest, Hi. specfloat. rewrite Hafter, finite_opp. exact Hd.
Qed.


End Binary32Properties.

(** ** The properties at work on the scenes *)

Module Runs.
Import Binary32 Scene Examples.

Lemma separating_contact_run :
  hardCollisionResponse (entityPosition ball) (entityVelocity ball) sideContact
    = (entityPosition ball, entityVelocity ball).
Proof.
  refine (proj1 (separating_contact_passes_through twoAvatars 0%nat sideContact _)).
  vm_compute. reflexivity.
Defined.

Lemma slow_contact_run :
  snd (hardCollisionResponse (entityPosition ball) (entityVelocity ball) slowContact)
    = _addedVelocity slowContact.
Proof.
  refine (proj1 (slow_contact_takes_added_velocity twoAvatars 0%nat slowContact _ _));
    vm_compute; reflexivity.
Defined.

Lemma locked_tree_run : updateCollisions twoBoxesLocked = (tt, twoBoxesLocked).
Proof.
  apply updateCollisions_skips_tick_without_lock. reflexivity.
Defined.

Lemma separating_pair_run :
  exec (forEach [awayFromB; hitB] (collideWithEntity 0%nat)) twoBoxes
    = exec (forEach [hitB] (collideWithEntity 0%nat)) twoBoxes.
Proof.
  refine (proj2 (separating_pair_is_skipped_scan_continues
                   twoBoxes 0%nat (entityB := 1%nat) [] [hitB] awayFromB _ _)).
  - reflexivity.
  - vm_compute. reflexivity.
Defined.

Lemma anchored_box_run :
  exists propertiesA collision,
    trace (exec (collideWithEntity 0%nat hitB) twoBoxes)
      = [UpdateEntity 0%nat propertiesA; QueueEditEntityMessage 0%nat propertiesA;
         EntityCollisionWithEntity 0%nat 1%nat collision]
    /\ entities (_entityTree (exec (collideWithEntity 0%nat hitB) twoBoxes))
       = [entity (applyUpdate (mkTree [boxA; boxB] false) 0%nat propertiesA) 0%nat; boxB].
Proof.
  assert (HmovableA : getCollisionsWillMove (_entityTree twoBoxes) 0%nat = true)
    by reflexivity.
  assert (HanchoredB : getCollisionsWillMove (_entityTree twoBoxes) 1%nat = false)
    by reflexivity.
  destruct (movable_against_immovable_updates_only_A
              twoBoxes 0%nat (entityB := 1%nat) hitB eq_refl HmovableA HanchoredB)
    as (_ & Heq & _ & _).
  assert (Hresolved :
            (isKnownID (_entityTree twoBoxes) 1%nat
             && negb (glm.length (glm.divs (_penetration hitB) scaleF)
                        >? getLargestDimension (_entityTree twoBoxes) 0%nat)%flt
             && (glm.dot (glm.sub (getVelocity (_entityTree twoBoxes) 0%nat)
                            (getVelocity (_entityTree twoBoxes) 1%nat))
                   (glm.divs (_penetration hitB) scaleF) >? fofZ 0)%flt) = true)
    by (vm_compute; reflexivity).
  rewrite Hresolved in Heq.
  rewrite Heq. eexists. eexists. split.
  - cbn [trace app]. reflexivity.
  - cbn [_entityTree]. vm_compute. reflexivity.
Defined.

(** C1, at a failing input: a ball touches two avatars, each reporting one
    contact.  While the second avatar is checked, the first avatar's contact
    is annotated and applied again: its added velocity ends up divided by
    [TREE_SCALE] twice, and of the three updates applied to the ball the
    first carries the added velocity and the second that velocity divided by
    [TREE_SCALE] once more. *)
Theorem second_avatar_reannotates_first_contact :
  let s' := exec (updateCollisionWithAvatars 0%nat) twoAvatars in
  let scale : float := scaleF in
  map (@_addedVelocity float nat) (items (_collisions s'))
    = [glm.divs (glm.divs addedVelocity1 scale) scale; glm.divs zero3 scale]
  /\ map (@_penetration float nat) (items (_collisions s'))
     = [glm.divs (glm.divs (_penetration avatarContact1) scale) scale;
        glm.divs (_penetration avatarContact2) scale]
  /\ map (@velocity float unit) (updatesOf (trace s'))
     = [addedVelocity1; glm.divs addedVelocity1 scale; glm.divs addedVelocity1 scale].
Proof. vm_compute. repeat split. Qed.

(** C2, refuted as stated: of the same forty overlaps the entity-pair path
    keeps thirty-two and the avatar path sixteen; the two capacities
    differ. *)
Lemma one_cap_for_both_paths_fails :
  maxSize (_collisions crowd) <> maxSize (snd (entityContacts (_entityTree crowd) 0%nat))
  /\ size (snd (entityContacts (_entityTree crowd) 0%nat)) = 32%nat
  /\ size (_collisions (exec (updateCollisionWithAvatars 0%nat) crowd)) = 16%nat.
Proof. vm_compute. repeat split. discriminate. Qed.

Lemma crowd_caps_run :
  items (snd (entityContacts (_entityTree crowd) 0%nat)) = firstn 32 fortyContacts
  /\ bufferWithin 16 (exec (updateCollisionWithAvatars 0%nat) crowd).
Proof.
  assert (Hcrowd : bufferWithin MAX_COLLISIONS_PER_Entity crowd)
    by (split; [reflexivity | apply Nat.le_0_l]).
  destruct (contact_caps_are_separate_constants 0%nat Hcrowd)
    as (_ & _ & _ & Hitems & Hbuffer & _).
  split; [exact Hitems | exact Hbuffer].
Defined.

Lemma twin_boxes_run :
  massRatios true true (mass boxA) (mass boxTwin) = (ofZ 1, ofZ 1)
  /\ map (@position float unit) (updatesOf (trace (exec (collideWithEntity 0%nat hitB) twins)))
     = [glm.scale (glm.sub (entityPosition boxA)
                     (glm.lscale (f 1 2) (glm.divs (_penetration hitB) scaleF))) scaleF;
        glm.scale (glm.add (entityPosition boxTwin)
                     (glm.lscale (f 1 2) (glm.divs (_penetration hitB) scaleF))) scaleF].
Proof.
  assert (HmovableA : getCollisionsWillMove (_entityTree twins) 0%nat = true)
    by reflexivity.
  assert (HmovableB : getCollisionsWillMove (_entityTree twins) 1%nat = true)
    by reflexivity.
  assert (Hknown : isKnownID (_entityTree twins) 1%nat = true) by reflexivity.
  assert (Hmass : computeMass (_entityTree twins) 0%nat = computeMass (_entityTree twins) 1%nat)
    by reflexivity.
  destruct (equal_masses_split_penetration_evenly
              twins 0%nat (entityB := 1%nat) hitB eq_refl Hknown)
    as [Hratios Hrun]; try assumption; try (vm_compute; reflexivity).
  split; [exact Hratios|].
  rewrite Hrun. cbn [trace]. vm_compute. reflexivity.
Defined.

Lemma ghosts_run :
  exec updateCollisions ghosts
  = mkSystem (mkTree [ghost; boxB] false) [0%nat] (_collisions ghosts) (Some [avatar1])
      1000%Z [].
Proof.
  assert (Hlock : tryLockForWrite (_entityTree ghosts) = Some (mkTree [ghost; boxB] true))
    by reflexivity.
  rewrite (tick_over_ignored_entities_only_locks ghosts Hlock); [reflexivity|].
  intros e [<-|[]]. reflexivity.
Defined.

Lemma stranger_run : sameButBuffer strangers (exec (checkEntity 0%nat) strangers).
Proof.
  apply unknown_entity_changes_nothing_but_buffer. reflexivity.
Defined.

Lemma unknown_counterpart_run :
  exec (forEach [hitNobody; hitB] (collideWithEntity 0%nat)) twoBoxes
    = exec (forEach [hitB] (collideWithEntity 0%nat)) twoBoxes.
Proof.
  refine (proj2 (unresolved_pair_is_skipped_scan_continues
                   twoBoxes 0%nat (entityB := 7%nat) [] [hitB] hitNobody _ _)).
  - reflexivity.
  - left. reflexivity.
Defined.

Lemma anchored_probe_run :
  exists propertiesB collision,
    trace (exec (collideWithEntity 0%nat awayFromB) anchoredFirst)
      = [UpdateEntity 1%nat propertiesB; QueueEditEntityMessage 1%nat propertiesB;
         EntityCollisionWithEntity 0%nat 1%nat collision]
    /\ entities (_entityTree (exec (collideWithEntity 0%nat awayFromB) anchoredFirst))
       = [boxB; entity (applyUpdate (mkTree [boxB; boxA] false) 1%nat propertiesB) 1%nat].
Proof.
  assert (HanchoredA : getCollisionsWillMove (_entityTree anchoredFirst) 0%nat = false)
    by reflexivity.
  assert (HmovableB : getCollisionsWillMove (_entityTree anchoredFirst) 1%nat = true)
    by reflexivity.
  destruct (immovable_against_movable_updates_only_B
              anchoredFirst 0%nat (entityB := 1%nat) awayFromB eq_refl HanchoredA HmovableB)
    as (_ & Heq & _).
  assert (Hresolved :
            (isKnownID (_entityTree anchoredFirst) 1%nat
             && negb (glm.length (glm.divs (_penetration awayFromB) scaleF)
                        >? getLargestDimension (_entityTree anchoredFirst) 0%nat)%flt
             && (glm.dot (glm.sub (getVelocity (_entityTree anchoredFirst) 0%nat)
                            (getVelocity (_entityTree anchoredFirst) 1%nat))
                   (glm.divs (_penetration awayFromB) scaleF) >? fofZ 0)%flt) = true)
    by (vm_compute; reflexivity).
  rewrite Hresolved in Heq.
  rewrite Heq. eexists. eexists. split.
  - cbn [trace app]. reflexivity.
  - cbn [_entityTree]. vm_compute. reflexivity.
Defined.

Lemma far_avatars_run :
  exec (updateCollisionWithAvatars 0%nat) farAvatars
  = mkSystem (mkTree [ball] false) [0%nat] (clear (_collisions farAvatars))
      (Some [farAvatar1; farAvatar2]) 1000%Z [].
Proof.
  apply (avatars_out_of_range_are_not_queried farAvatars 0%nat
           (avatars := [farAvatar1; farAvatar2])).
  - reflexivity.
  - reflexivity.
  - reflexivity.
  - intros avatar [<-|[<-|[]]]; vm_compute; reflexivity.
Defined.


(** The halting speed of line 259 in binary32: the double 9.8 times 0.0167f,
    divided by 16384 and rounded once. *)
Lemma halting_speed_binary32 :
  HALTING_ENTITY_SPEED (world := Scene.world) = S754_finite false 10983036 (-40).
Proof. vm_compute. reflexivity. Qed.

(* the test of line 282 at that speed and one place below it *)
Lemma halting_test_at_the_threshold :
  let speed (m : positive) : float :=
    glm.length (v3 (f 0 1) (f 0 1) (S754_finite false m (-40))) in
  (speed 10983036%positive <? HALTING_ENTITY_SPEED (world := Scene.world))%flt = false
  /\ (speed 10983035%positive <? HALTING_ENTITY_SPEED (world := Scene.world))%flt = true.
Proof. vm_compute. split; reflexivity. Qed.



End Runs.

(** * Properties of ResourceManager.cpp *)

Module ResourceManagerFacts.
Import ResourceManager.
Local Open Scope string_scope.

Lemma compare_refl (s : string) : String.compare s s = Eq.
Proof. apply String_as_OT.cmp_eq. reflexivity. Qed.

Lemma compare_trans (a b c : string) :
  String.compare a b = Lt -> String.compare b c = Lt -> String.compare a c = Lt.
Proof.
  intros Hab Hbc. apply String_as_OT.cmp_lt.
  apply String_as_OT.lt_trans with (y := b); apply String_as_OT.cmp_lt; assumption.
Qed.

Lemma compare_lt_neq (a b : string) : String.compare a b = Lt -> a <> b.
Proof. intros Hlt Heq. subst. rewrite compare_refl in Hlt. discriminate. Qed.

Lemma compare_gt_lt (a b : string) : String.compare a b = Gt -> String.compare b a = Lt.
Proof. intros Hgt. rewrite String.compare_antisym, Hgt. reflexivity. Qed.

Arguments compare_trans {a b c}.
Arguments compare_lt_neq {a b}.
Arguments compare_gt_lt {a b}.

Lemma prefix_empty (s : string) : String.prefix "" s = true.
Proof. destruct s; reflexivity. Qed.

Lemma prefix_app (p rest : string) : String.prefix p (p ++ rest) = true.
Proof.
  induction p as [|ch p IH]; simpl; [apply prefix_empty|].
  destruct (ascii_dec ch ch) as [_|Hne]; [exact IH | contradiction].
Qed.

Lemma substring_all (s : string) : String.substring 0 (String.length s) s = s.
Proof. induction s as [|ch s IH]; simpl; [reflexivity|]. rewrite IH. reflexivity. Qed.

(* result.replace(0, prefix.size(), replacement) on a string that starts
   with the prefix *)
Lemma replace0_app (p r rest : string) :
  replace0 (String.length p) r (p ++ rest) = r ++ rest.
Proof.
  unfold replace0. f_equal.
  induction p as [|ch p IH]; simpl.
  - rewrite Nat.sub_0_r. apply substring_all.
  - exact IH.
Qed.

Lemma prefix_split (p s : string) :
  String.prefix p s = true -> exists rest, s = p ++ rest.
Proof.
  revert s. induction p as [|ch p IH]; intros s Hprefix.
  - exists s. reflexivity.
  - destruct s as [|ch' s]; simpl in Hprefix; [discriminate|].
    destruct (ascii_dec ch ch') as [->|_]; [|discriminate].
    destruct (IH s Hprefix) as [rest ->]. exists rest. reflexivity.
Qed.

(* overrides that do not match leave the accumulator alone *)
Lemma fold_no_match (m : PrefixMap) (result : string) (modified : bool) (log : list LogLine) :
  (forall k v, In (k, v) m -> String.prefix k result = false) ->
  fold_left normalizeStep m (result, modified, log) = (result, modified, log).
Proof.
  induction m as [|[key value] m IH]; intros Hnone; [reflexivity|].
  simpl. rewrite (Hnone key value (or_introl eq_refl)).
  apply IH. intros k v Hin. apply (Hnone k v). right. exact Hin.
Qed.

(* the string computed does not depend on the flag and the log *)
Lemma normalizeURL_keeps_map (urlString : string) (st : State) :
  PREFIX_MAP (snd (normalizeURL urlString st)) = PREFIX_MAP st.
Proof.
  unfold normalizeURL.
  destruct (fold_left normalizeStep (PREFIX_MAP st) (urlString, false, debugLog st))
    as [[result modified] log].
  reflexivity.
Qed.

(** X13: a URL that starts with none of the overridden prefixes is returned
    as it is, and nothing is logged; in particular with no override set. *)
Theorem normalizeURL_without_match_is_identity (urlString : string) (st : State) :
  (forall prefix replacement,
     In (prefix, replacement) (PREFIX_MAP st) -> String.prefix prefix urlString = false) ->
  normalizeURL urlString st = (urlString, st).
Proof.
  intros Hnone. unfold normalizeURL. rewrite fold_no_match by exact Hnone.
  destruct st. reflexivity.
Qed.

(** X14: the last override set for a prefix is the one that holds: setting
    a prefix twice leaves the map as if only the second call had been
    made. *)
Theorem setUrlPrefixOverride_last_wins (prefix first second : string) (st : State) :
  setUrlPrefixOverride prefix second (setUrlPrefixOverride prefix first st)
  = setUrlPrefixOverride prefix second st.
Proof.
  unfold setUrlPrefixOverride. simpl. f_equal.
  induction (PREFIX_MAP st) as [|[key value] m IH]; simpl.
  - rewrite compare_refl. reflexivity.
  - destruct (String.compare prefix key) eqn:Hcmp; simpl.
    + rewrite compare_refl. reflexivity.
    + rewrite compare_refl. reflexivity.
    + rewrite Hcmp, IH. reflexivity.
Qed.

Lemma ascending_above (key value : string) (m : PrefixMap) (k v : string) :
  ascending ((key, value) :: m) -> In (k, v) m -> String.compare key k = Lt.
Proof.
  intros Hsorted Hin. apply StronglySorted_inv in Hsorted. destruct Hsorted as [_ Hall].
  rewrite Forall_forall in Hall. exact (Hall (k, v) Hin).
Qed.

Lemma ascending_tail (entry : string * string) (m : PrefixMap) :
  ascending (entry :: m) -> ascending m.
Proof. intros Hsorted. apply StronglySorted_inv in Hsorted. apply Hsorted. Qed.

Arguments ascending_above {key value m k v}.
Arguments ascending_tail {entry m}.

Lemma assign_entries (p r : string) (m : PrefixMap) :
  ascending m ->
  ascending (assign p r m)
  /\ (forall k v, In (k, v) (assign p r m) <-> (k = p /\ v = r) \/ (k <> p /\ In (k, v) m)).
Proof.
  induction m as [|[key value] m IH]; intros Hsorted.
  - split.
    + repeat constructor.
    + intros k v. simpl. split.
      * intros [Heq|[]]. injection Heq as <- <-. left. split; reflexivity.
      * intros [[-> ->]|[_ []]]. left. reflexivity.
  - simpl. destruct (String.compare p key) eqn:Hcmp.
    + apply String.compare_eq_iff in Hcmp. subst key. split.
      * constructor; [exact (ascending_tail Hsorted)|].
        apply StronglySorted_inv in Hsorted. apply Hsorted.
      * intros k v. simpl. split.
        -- intros [Heq|Hin]; [injection Heq as <- <-; left; split; reflexivity|].
           right. split; [|right; exact Hin].
           intros ->. pose proof (ascending_above Hsorted Hin) as Hlt.
           exact (compare_lt_neq Hlt eq_refl).
        -- intros [[-> ->]|[Hne [Heq|Hin]]]; [left; reflexivity | | right; exact Hin].
           injection Heq as -> _. contradiction.
    + assert (Habove : forall k v, In (k, v) ((key, value) :: m) -> String.compare p k = Lt).
      { intros k v [Heq|Hin]; [injection Heq as <- _; exact Hcmp|].
        exact (compare_trans Hcmp (ascending_above Hsorted Hin)). }
      split.
      * constructor; [exact Hsorted|]. apply Forall_forall. intros [k v] Hin.
        exact (Habove k v Hin).
      * intros k v. split.
        -- intros [Heq|Hin]; [injection Heq as <- <-; left; split; reflexivity|].
           right. split; [|exact Hin]. intros ->.
           exact (compare_lt_neq (Habove _ _ Hin) eq_refl).
        -- intros [[-> ->]|[_ Hin]]; [left; reflexivity | right; exact Hin].
    + destruct (IH (ascending_tail Hsorted)) as [IHsorted IHin]. split.
      * constructor; [exact IHsorted|]. apply Forall_forall. intros [k v] Hin.
        apply IHin in Hin. destruct Hin as [[-> ->]|[_ Hin]].
        -- exact (compare_gt_lt Hcmp).
        -- exact (ascending_above Hsorted Hin).
      * intros k v. simpl. rewrite IHin. split.
        -- intros [Heq|[Hnew|[Hne Hin]]].
           ++ injection Heq as <- <-. right. split; [|left; reflexivity].
              intros Heq. rewrite Heq, compare_refl in Hcmp. discriminate.
           ++ left. exact Hnew.
           ++ right. split; [exact Hne | right; exact Hin].
        -- intros [Hnew|[Hne [Heq|Hin]]].
           ++ right. left. exact Hnew.
           ++ left. exact Heq.
           ++ right. right. split; assumption.
Qed.

(** X15: [setUrlPrefixOverride] behaves as an assignment in a map: after
    it the prefix is bound to the replacement and to nothing else, every
    other binding is as before, the keys are still strictly ascending (so the
    overrides are visited in key order), and nothing is logged. *)
Theorem setUrlPrefixOverride_assigns (prefix replacement : string) (st : State) :
  ascending (PREFIX_MAP st) ->
  let st' := setUrlPrefixOverride prefix replacement st in
  ascending (PREFIX_MAP st')
  /\ (forall k v, In (k, v) (PREFIX_MAP st')
        <-> (k = prefix /\ v = replacement) \/ (k <> prefix /\ In (k, v) (PREFIX_MAP st)))
  /\ debugLog st' = debugLog st.
Proof.
  intros Hsorted st'. destruct (assign_entries prefix replacement Hsorted) as [H1 H2].
  split; [exact H1|]. split; [exact H2 | reflexivity].
Qed.

Lemma fold_assign (p r rest : string) (m : PrefixMap) (log : list LogLine) :
  ascending m ->
  (forall k v, In (k, v) m -> k <> p ->
     String.prefix k (p ++ rest) = false /\ String.prefix k (r ++ rest) = false) ->
  fold_left normalizeStep (assign p r m) (p ++ rest, false, log)
  = (r ++ rest, true, (log ++ [Line p])%list).
Proof.
  intros Hsorted Hothers.
  assert (Hhit : forall m', (forall k v, In (k, v) m' -> In (k, v) m /\ k <> p) ->
            fold_left normalizeStep ((p, r) :: m') (p ++ rest, false, log)
            = (r ++ rest, true, (log ++ [Line p])%list)).
  { intros m' Hm'. simpl. rewrite prefix_app, replace0_app.
    apply fold_no_match. intros k v Hin. destruct (Hm' k v Hin) as [Hinm Hne].
    apply (Hothers k v Hinm Hne). }
  induction m as [|[key value] m IH]; cbn [assign].
  - apply Hhit. intros k v [].
  - destruct (String.compare p key) eqn:Hcmp.
    + apply String.compare_eq_iff in Hcmp. subst key. apply Hhit.
      intros k v Hin. split; [right; exact Hin|].
      intros ->. exact (compare_lt_neq (ascending_above Hsorted Hin) eq_refl).
    + apply Hhit. intros k v Hin. split; [exact Hin|]. intros ->.
      destruct Hin as [Heq|Hin].
      * injection Heq as <- _. rewrite compare_refl in Hcmp. discriminate.
      * exact (compare_lt_neq (compare_trans Hcmp (ascending_above Hsorted Hin)) eq_refl).
    + assert (Hne : key <> p).
      { intros ->. rewrite compare_refl in Hcmp. discriminate. }
      cbn [fold_left normalizeStep].
      rewrite (proj1 (Hothers key value (or_introl eq_refl) Hne)).
      apply IH.
      * exact (ascending_tail Hsorted).
      * intros k v Hin Hn. apply (Hothers k v); [right; exact Hin | exact Hn].
      * intros m' Hm'. apply Hhit. intros k v Hin. destruct (Hm' k v Hin) as [Hinm Hn].
        split; [right; exact Hinm | exact Hn].
Qed.

(** X16: set, then normalize.  After [setUrlPrefixOverride prefix
    replacement] for a prefix that is not empty, a URL that starts with the
    prefix comes back with the prefix replaced, and the prefix and the result
    are logged, provided no other override matches the URL or the rewritten
    URL. *)
Theorem override_rewrites_matching_url (prefix replacement rest : string) (st : State) :
  prefix <> "" ->
  ascending (PREFIX_MAP st) ->
  (forall k v, In (k, v) (PREFIX_MAP st) -> k <> prefix ->
     String.prefix k (prefix ++ rest) = false
     /\ String.prefix k (replacement ++ rest) = false) ->
  let st' := setUrlPrefixOverride prefix replacement st in
  normalizeURL (prefix ++ rest) st'
  = (replacement ++ rest,
     mkState (PREFIX_MAP st')
       (debugLog st ++ [Line prefix; Line (replacement ++ rest)])%list).
Proof.
  intros _ Hsorted Hothers st'. unfold normalizeURL, st', setUrlPrefixOverride. simpl.
  rewrite fold_assign by assumption. rewrite <- app_assoc. reflexivity.
Qed.

Section Requests.
Variables QUrl QObject : Type.
Context {api : UrlApi QUrl}.

Lemma normalizeQUrl_keeps_map (u : QUrl) (st : State) :
  PREFIX_MAP (snd (normalizeQUrl u st)) = PREFIX_MAP st.
Proof.
  unfold normalizeQUrl. pose proof (normalizeURL_keeps_map (toString u) st) as Hmap.
  destruct (normalizeURL (toString u) st) as [normalized st1]. simpl in Hmap.
  repeat match goal with |- context [if ?b then _ else _] => destruct b end; exact Hmap.
Qed.

(** X17: [createResourceRequest] returns the null pointer exactly when
    the scheme of the normalized URL is none of file, http, https, ftp and
    atp, and only then logs the unknown scheme; a request it returns is for
    the normalized URL, not the URL passed in, and the overrides are never
    changed. *)
Theorem createResourceRequest_null_iff_unknown_scheme
    (parent : QObject) (u : QUrl) (st : State) :
  let normalized := fst (normalizeQUrl u st) in
  let st1 := snd (normalizeQUrl u st) in
  let result := createResourceRequest parent u st in
  (fst result = None <-> knownScheme (scheme normalized) = false)
  /\ (fst result = None ->
      debugLog (snd result)
      = (debugLog st1 ++ [UnknownScheme (scheme normalized) (url u)])%list)
  /\ (forall request, fst result = Some request ->
        requestUrl request = normalized /\ snd result = st1)
  /\ PREFIX_MAP (snd result) = PREFIX_MAP st.
Proof.
  intros normalized st1 result.
  pose proof (normalizeQUrl_keeps_map u st) as Hmap. fold st1 in Hmap.
  subst result. unfold createResourceRequest, knownScheme.
  subst normalized st1. destruct (normalizeQUrl u st) as [normalized st1]. simpl in *.
  destruct (String.eqb (scheme normalized) URL_SCHEME_FILE),
    (String.eqb (scheme normalized) URL_SCHEME_HTTP),
    (String.eqb (scheme normalized) URL_SCHEME_HTTPS),
    (String.eqb (scheme normalized) URL_SCHEME_FTP),
    (String.eqb (scheme normalized) URL_SCHEME_ATP); simpl;
    (split; [split; intros Hcase; (discriminate Hcase || reflexivity)|]);
    (split; [intros Hcase; (discriminate Hcase || reflexivity)|]);
    (split; [intros request Hcase; (discriminate Hcase || (injection Hcase as <-; split; reflexivity))|]);
    assumption.
Qed.

(** X18: an override redirects the request.  After [setUrlPrefixOverride
    prefix replacement] for a prefix that is not empty, asking for a URL that reads prefix followed by
    something yields a request for the replacement followed by the same:
    an HTTP request when that has the http scheme, provided no other
    override matches either string. *)
Theorem override_redirects_request
    (parent : QObject) (u : QUrl) (prefix replacement rest : string) (st : State) :
  prefix <> "" ->
  ascending (PREFIX_MAP st) ->
  (forall k v, In (k, v) (PREFIX_MAP st) -> k <> prefix ->
     String.prefix k (prefix ++ rest) = false
     /\ String.prefix k (replacement ++ rest) = false) ->
  toString u = prefix ++ rest ->
  scheme (QUrl_of (replacement ++ rest)) = URL_SCHEME_HTTP ->
  URL_SCHEME_HTTP <> URL_SCHEME_FILE ->
  let st' := setUrlPrefixOverride prefix replacement st in
  createResourceRequest parent u st'
  = (Some (HTTPResourceRequest parent (QUrl_of (replacement ++ rest))),
     mkState (PREFIX_MAP st')
       (debugLog st ++ [Line prefix; Line (replacement ++ rest)])%list).
Proof.
  intros _ Hsorted Hothers Hu Hhttp Hdistinct st'.
  unfold createResourceRequest, normalizeQUrl, normalizeURL. rewrite Hu.
  unfold st', setUrlPrefixOverride. cbn [PREFIX_MAP debugLog].
  rewrite fold_assign by assumption. rewrite <- app_assoc.
  cbv zeta iota beta. rewrite Hhttp.
  destruct (String.eqb_spec URL_SCHEME_HTTP URL_SCHEME_FILE) as [Heq|_]; [contradiction|].
  rewrite String.eqb_refl. simpl. rewrite Hhttp.
  destruct (String.eqb_spec URL_SCHEME_HTTP URL_SCHEME_FILE) as [Heq|_]; [contradiction|].
  rewrite String.eqb_refl. reflexivity.
Qed.

(** X19: the fallback for paths such as c:/filename.  When no override
    matches and the scheme is none of the five, the URL is tried again behind
    "file:///": if that has a local file (and the file scheme) the request is
    a file request for the wrapped URL and nothing is logged; if it has none,
    the result is the null pointer and the unknown scheme is logged. *)
Theorem unknown_scheme_falls_back_to_local_file
    (parent : QObject) (u : QUrl) (st : State) :
  let parsed := QUrl_of (toString u) in
  let wrapped := QUrl_of (URL_SCHEME_FILE ++ ":///" ++ toString parsed) in
  (forall prefix replacement,
     In (prefix, replacement) (PREFIX_MAP st) -> String.prefix prefix (toString u) = false) ->
  knownScheme (scheme parsed) = false ->
  scheme wrapped = URL_SCHEME_FILE ->
  createResourceRequest parent u st
  = if String.eqb (toLocalFile wrapped) ""
    then (None, mkState (PREFIX_MAP st)
                  (debugLog st ++ [UnknownScheme (scheme parsed) (url u)])%list)
    else (Some (FileResourceRequest parent wrapped), st).
Proof.
  intros parsed wrapped Hnone Hunknown Hfile.
  unfold createResourceRequest, normalizeQUrl, normalizeURL.
  rewrite fold_no_match by exact Hnone.
  cbv zeta iota beta. fold parsed. unfold knownScheme in Hunknown. rewrite Hunknown.
  cbn [negb]. fold wrapped. destruct st as [map log]. cbn [PREFIX_MAP debugLog].
  destruct (String.eqb (toLocalFile wrapped) ""); cbn [negb].
  - repeat (apply orb_false_elim in Hunknown; destruct Hunknown as [Hunknown ?]).
    repeat match goal with H : String.eqb _ _ = false |- _ => rewrite H; clear H end.
    reflexivity.
  - rewrite Hfile, String.eqb_refl. reflexivity.
Qed.
End Requests.

(** ** The properties at work on two overrides *)

Lemma twoOverrides_ascending : ascending (PREFIX_MAP twoOverrides).
Proof.
  unfold ascending. simpl. repeat (constructor; try reflexivity).
Qed.

Lemma twoOverrides_elsewhere (k v : string) :
  In (k, v) (PREFIX_MAP twoOverrides) -> k <> "ftp://files" ->
  String.prefix k ("ftp://files" ++ "/a.fbx") = false
  /\ String.prefix k ("http://files.example" ++ "/a.fbx") = false.
Proof.
  intros [H|[H|[]]] _; injection H as <- _; split; reflexivity.
Qed.

Lemma no_match_run :
  normalizeURL "https://example.com/a.fbx" twoOverrides
  = ("https://example.com/a.fbx", twoOverrides).
Proof.
  apply normalizeURL_without_match_is_identity.
  intros prefix replacement [H|[H|[]]]; injection H as <- _; reflexivity.
Defined.

Lemma third_override_run :
  let st' := setUrlPrefixOverride "ftp://files" "http://files.example" twoOverrides in
  ascending (PREFIX_MAP st')
  /\ (forall k v, In (k, v) (PREFIX_MAP st')
        <-> (k = "ftp://files" /\ v = "http://files.example")
            \/ (k <> "ftp://files" /\ In (k, v) (PREFIX_MAP twoOverrides)))
  /\ debugLog st' = debugLog twoOverrides.
Proof.
  exact (@setUrlPrefixOverride_assigns "ftp://files" "http://files.example"
           twoOverrides twoOverrides_ascending).
Defined.

Lemma third_override_rewrites_run :
  let st' := setUrlPrefixOverride "ftp://files" "http://files.example" twoOverrides in
  normalizeURL "ftp://files/a.fbx" st'
  = ("http://files.example/a.fbx",
     mkState (PREFIX_MAP st') [Line "ftp://files"; Line "http://files.example/a.fbx"]).
Proof.
  assert (Hprefix : "ftp://files" <> "") by discriminate.
  exact (@override_rewrites_matching_url "ftp://files" "http://files.example" "/a.fbx"
           twoOverrides Hprefix twoOverrides_ascending twoOverrides_elsewhere).
Defined.

Lemma third_override_redirects_run :
  let st' := setUrlPrefixOverride "ftp://files" "http://files.example" twoOverrides in
  createResourceRequest (api := ToyUrl.api) tt "ftp://files/a.fbx" st'
  = (Some (HTTPResourceRequest tt "http://files.example/a.fbx"),
     mkState (PREFIX_MAP st') [Line "ftp://files"; Line "http://files.example/a.fbx"]).
Proof.
  assert (Hprefix : "ftp://files" <> "") by discriminate.
  assert (Hschemes : URL_SCHEME_HTTP (UrlApi := ToyUrl.api)
                     <> URL_SCHEME_FILE (UrlApi := ToyUrl.api)) by discriminate.
  exact (@override_redirects_request string unit ToyUrl.api tt "ftp://files/a.fbx"
           "ftp://files" "http://files.example" "/a.fbx" twoOverrides
           Hprefix twoOverrides_ascending twoOverrides_elsewhere eq_refl eq_refl Hschemes).
Defined.

Lemma windows_path_run :
  createResourceRequest (api := ToyUrl.api) tt "c:/file.txt" twoOverrides
  = (Some (FileResourceRequest tt "file:///c:/file.txt"), twoOverrides).
Proof.
  assert (Hnone : forall prefix replacement,
            In (prefix, replacement) (PREFIX_MAP twoOverrides) ->
            String.prefix prefix (toString (UrlApi := ToyUrl.api) "c:/file.txt") = false).
  { intros prefix replacement [H|[H|[]]]; injection H as <- _; reflexivity. }
  exact (@unknown_scheme_falls_back_to_local_file string unit ToyUrl.api tt "c:/file.txt"
           twoOverrides Hnone eq_refl eq_refl).
Defined.

End ResourceManagerFacts.
